(** * Leaderboard: offline and online top-decile ranking

    A shallow embedding of [Leaderboard.cpp] and [PlayerStream.cpp], and the
    properties their specification states of them.

    - [std::vector<Player>] is a [list Player], read with [!!] and [!!!] and
      written with [<[i:=x]>]; a function that mutates its argument returns
      the new vector next to its result.
    - [size_t] values are [N] (or [nat] where they index a list); the
      subtraction in [remaining] wraps modulo [2^64].  The [int] indices of
      [partition], [quickSort] and [quickSelect] are [Z], since the code
      computes [pivot - 1] and [players.size() - 1] on them.  Vectors are
      taken to be shorter than [INT_MAX], so that no [int] overflows.
    - [std::unordered_map<size_t, size_t>] is a [gmap N N].
    - An exception, and a loop of the model running out of its bound, are
      results of their own ([outcome]); every theorem about a call that
      returns shows that it returns.
    - [std::make_heap], [std::pop_heap] and [std::sort] are taken by their
      ISO C++ contracts (class [StdAlgorithm]); [Player]'s comparison
      operators, declared in [Player.hpp], by the laws of a strict weak
      order keyed on [level_] (class [PlayerOrder]).  Both classes are
      inhabited ([level_order], [ref_stl]).
    - Reading a vector past its end is undefined in C++; the model reads a
      default player there.  The rankers call [partition] and [replaceMin]
      within the vector only, which is what their lemmas assume.
    - [elapsed_] is a wall-clock reading and is left out of the model. *)

From stdpp Require Import base list gmap strings sorting.
From Stdlib Require Import ZArith Lia ZifyNat.
From Stdlib Require PrimFloat FloatOps SpecFloat Uint63.

Local Open Scope Z_scope.
Local Open Scope nat_scope.
Local Coercion Z.of_nat : nat >-> Z.

(** ** Players and their order *)

Record Player : Type := mkPlayer { name_ : string; level_ : N }.

#[global] Instance Player_eq_dec : EqDecision Player.
Proof. solve_decision. Defined.

#[global] Instance Player_inhabited : Inhabited Player :=
  populate (mkPlayer "" 0%N).

Definition comparator : Type := Player → Player → bool.

(** What the standard asks of a comparison handed to the heap and sorting
    algorithms. *)
Record StrictWeakOrder (comp : comparator) : Prop := {
  swo_asym : ∀ a b, comp a b = true → comp b a = false;
  swo_negtrans : ∀ a b c, comp a b = false → comp b c = false → comp a c = false
}.

(** [Player::operator<] (declared in Player.hpp): a strict weak order in
    which a lower [level_] always comes first.  Ties between equal levels
    may or may not be broken, e.g. by name. *)
Class PlayerOrder : Type := {
  player_lt : comparator;
  player_lt_swo : StrictWeakOrder player_lt;
  player_lt_level : ∀ a b, (level_ a < level_ b)%N → player_lt a b = true
}.

(** [Player::operator>], what [std::greater<>] calls. *)
Definition player_gt `{PlayerOrder} : comparator := λ a b, player_lt b a.

(** ** Vectors *)

(** [std::swap(v[i], v[j])].  Indexing past the end is undefined in C++;
    the model then leaves the vector as it is. *)
Definition swap (v : list Player) (i j : nat) : list Player :=
  match v !! i, v !! j with
  | Some a, Some b => <[j:=a]> (<[i:=b]> v)
  | _, _ => v
  end.

(** [is_heap comp v]: no parent compares below one of its children
    ([std::is_heap]). *)
Definition is_heap (comp : comparator) (v : list Player) : Prop :=
  ∀ i x y, 0 < i → v !! ((i - 1) / 2) = Some x → v !! i = Some y →
    comp x y = false.

(** [is_sorted comp v]: no later element compares below an earlier one
    ([std::is_sorted]). *)
Definition is_sorted (comp : comparator) (v : list Player) : Prop :=
  ∀ i j x y, i < j → v !! i = Some x → v !! j = Some y → comp y x = false.

(** [v] is non-decreasing by score. *)
Definition ascending_by_level (v : list Player) : Prop :=
  ∀ i j x y, i ≤ j → v !! i = Some x → v !! j = Some y →
    (level_ x ≤ level_ y)%N.

(** ** The standard algorithms, by contract *)

Class StdAlgorithm : Type := {
  std_make_heap : comparator → list Player → list Player;
  std_pop_heap : comparator → list Player → list Player;
  std_sort : comparator → list Player → list Player;
  make_heap_perm : ∀ comp v, std_make_heap comp v ≡ₚ v;
  make_heap_is_heap : ∀ comp v,
    StrictWeakOrder comp → is_heap comp (std_make_heap comp v);
  pop_heap_spec : ∀ comp x v,
    StrictWeakOrder comp → is_heap comp (x :: v) →
    ∃ h, std_pop_heap comp (x :: v) = h ++ [x] ∧ h ≡ₚ v ∧ is_heap comp h;
  sort_perm : ∀ comp v, std_sort comp v ≡ₚ v;
  sort_is_sorted : ∀ comp v,
    StrictWeakOrder comp → is_sorted comp (std_sort comp v)
}.

(** ** Results *)

Record RankingResult : Type := mkRankingResult {
  top_ : list Player;
  cutoffs_ : gmap N N
}.

(** [RankingResult result;] *)
Definition empty_result : RankingResult := mkRankingResult [] ∅.

(** What a call can end in: a value, a C++ exception, or the model's loop
    bound reached. *)
Inductive outcome (A : Type) : Type :=
  | Ok (a : A)
  | Throw (what : string)
  | OutOfFuel.
Arguments Ok {A} a.
Arguments Throw {A} what.
Arguments OutOfFuel {A}.

#[global] Instance outcome_ret : MRet outcome := λ A a, Ok a.
#[global] Instance outcome_bind : MBind outcome := λ A B f m,
  match m with
  | Ok a => f a
  | Throw s => Throw s
  | OutOfFuel => OutOfFuel
  end.

(** ** PlayerStream.cpp *)

(** [size_t] is 64 bits wide; its subtraction wraps. *)
Definition size_t_modulus : Z := 2 ^ 64.

Record VectorPlayerStream : Type := mkStream {
  players_ : list Player;
  currIndex : N
}.

(** [VectorPlayerStream::VectorPlayerStream] *)
Definition VectorPlayerStream_new (players : list Player) : VectorPlayerStream :=
  mkStream players 0.

(** [VectorPlayerStream::nextPlayer] *)
Definition nextPlayer (s : VectorPlayerStream)
  : outcome (Player * VectorPlayerStream) :=
  if (N.of_nat (length (players_ s)) <=? currIndex s)%N then
    Throw "Out of Bounds."
  else
    Ok (players_ s !!! N.to_nat (currIndex s),
        mkStream (players_ s) (currIndex s + 1)).

(** [VectorPlayerStream::remaining] *)
Definition remaining (s : VectorPlayerStream) : N :=
  Z.to_N ((Z.of_nat (length (players_ s)) - Z.of_N (currIndex s))
          mod size_t_modulus).

(** The states a stream is ever in: the constructor starts at index 0 and
    [nextPlayer] only moves the index up to the size. *)
Definition stream_ok (s : VectorPlayerStream) : Prop :=
  (currIndex s ≤ N.of_nat (length (players_ s)))%N ∧
  (Z.of_nat (length (players_ s)) < size_t_modulus)%Z.

(** The players a stream has yet to hand out. *)
Definition pending (s : VectorPlayerStream) : list Player :=
  drop (N.to_nat (currIndex s)) (players_ s).

(** ** Leaderboard.cpp *)

(** The double arithmetic behind the decile. *)
Module Double.
Import PrimFloat.

(** [std::floor] of a double, as an integer. *)
Definition floor (x : float) : Z :=
  match FloatOps.Prim2SF x with
  | SpecFloat.S754_finite false m e =>
      if (0 <=? e)%Z then Z.pos m * 2 ^ e else Z.pos m / 2 ^ (- e)
  | SpecFloat.S754_finite true m e =>
      if (0 <=? e)%Z then - (Z.pos m * 2 ^ e)
      else - ((Z.pos m + 2 ^ (- e) - 1) / 2 ^ (- e))
  | _ => 0
  end%Z.

(** [std::floor(0.1 * n)] as the machine computes it: [n] converted to
    double, multiplied by the double nearest to 0.1, rounded down. *)
Definition decile (n : Z) : Z :=
  floor (0x1.999999999999ap-4 * of_uint63 (Uint63.of_Z n))%float.

(** Sizes next to a multiple of ten, around every power of two up to
    [INT_MAX]: where a rounding error in the product would show first. *)
Definition boundary_sizes : list Z :=
  2147483647%Z ::
  (m ← (λ j, 2 ^ Z.of_nat j)%Z <$> seq 1 27;
   d ← [-1; 0; 1]%Z;
   [10 * (m + d) - 1; 10 * (m + d); 10 * (m + d) + 9]%Z).

End Double.

(** [std::floor(0.1 * n)] converted to [int].  The double nearest to 0.1
    exceeds it by a factor of [1 + 2^-54], too little to carry the rounded
    product across an integer at any size an [int] can hold, so the value
    is [n / 10]; [decile_double_agrees] and [decile_double_agrees_large]
    below check it by evaluation against [Double.decile]. *)
Definition decile (n : nat) : nat := n / 10.

Section Leaderboard.
Context `{order : PlayerOrder} `{stl : StdAlgorithm}.

(** [std::pop_heap(players.begin(), players.end() - i)]: the algorithm runs
    on the first [size - i] elements, the rest stay where they are. *)
Definition pop_heap_before (players : list Player) (i : nat) : list Player :=
  let last := length players - i in
  std_pop_heap player_lt (take last players) ++ drop last players.

(** [Offline::heapRank]; the first component is [players] after the call. *)
Definition heapRank (players : list Player) : list Player * RankingResult :=
  let topTen := decile (length players) in
  let players := std_make_heap player_lt players in
  let players := foldl pop_heap_before players (seq 0 topTen) in
  let top := drop (length players - topTen) players in
  let top := std_sort player_lt top in
  (players, mkRankingResult top (cutoffs_ empty_result)).

(** The [for] loop of [Offline::partition], [steps] iterations from [i]. *)
Fixpoint partition_loop (x : Player) (players : list Player)
    (lower i steps : nat) : list Player * nat :=
  match steps with
  | 0 => (players, lower)
  | S steps =>
      if (level_ (players !!! i) <=? level_ x)%N
      then partition_loop x (swap players lower i) (S lower) (S i) steps
      else partition_loop x players lower (S i) steps
  end.

(** [Offline::partition] *)
Definition partition (players : list Player) (low high : Z)
  : list Player * Z :=
  let lower := Z.to_nat low in
  let x := players !!! Z.to_nat high in
  let '(players, lower) :=
    partition_loop x players lower lower (Z.to_nat (high - low)) in
  (swap players lower (Z.to_nat high), Z.of_nat lower).

(** [Offline::quickSort]; [fuel] bounds the depth of the recursion. *)
Fixpoint quickSort (fuel : nat) (players : list Player) (low high : Z)
  : outcome (list Player) :=
  if (low <? high)%Z then
    match fuel with
    | 0 => OutOfFuel
    | S fuel =>
        let '(players, pivot) := partition players low high in
        players ← quickSort fuel players low (pivot - 1);
        quickSort fuel players (pivot + 1) high
    end
  else Ok players.

(** [Offline::quickSelect] *)
Fixpoint quickSelect (fuel : nat) (players : list Player) (low high k : Z)
  : outcome (list Player) :=
  if (low <? high)%Z then
    match fuel with
    | 0 => OutOfFuel
    | S fuel =>
        let '(players, pivot) := partition players low high in
        if (pivot =? k)%Z then Ok players
        else if (pivot <? k)%Z then quickSelect fuel players (pivot + 1) high k
        else quickSelect fuel players low (pivot - 1) k
    end
  else Ok players.

(** [Offline::quickSelectRank]; the first component is [players] after the
    call.  The recursion is never deeper than the vector is long. *)
Definition quickSelectRank (players : list Player)
  : outcome (list Player * RankingResult) :=
  let size := Z.of_nat (length players) in
  let topTen := (size - Z.of_nat (decile (length players)))%Z in
  let fuel := length players in
  players ← quickSelect fuel players 0 (size - 1) topTen;
  players ← quickSort fuel players topTen (size - 1);
  let top := drop (Z.to_nat topTen) players in
  Ok (players, mkRankingResult top (cutoffs_ empty_result)).

(** [*std::next(first, i) < *std::next(first, j)] *)
Definition less_at (v : list Player) (i j : nat) : bool :=
  player_lt (v !!! i) (v !!! j).

(** The [while (true)] loop of [Online::replaceMin]. *)
Fixpoint replaceMin_loop (fuel : nat) (v : list Player) (size index : nat)
  : outcome (list Player) :=
  match fuel with
  | 0 => OutOfFuel
  | S fuel =>
      let child := index * 2 + 1 in
      let smallerChild := index in
      let smallerChild :=
        if bool_decide (child < size) && less_at v child smallerChild
        then child else smallerChild in
      let smallerChild :=
        if bool_decide (child + 1 < size) && less_at v (child + 1) smallerChild
        then child + 1 else smallerChild in
      if bool_decide (smallerChild ≠ index)
      then replaceMin_loop fuel (swap v index smallerChild) size smallerChild
      else Ok v
  end.

(** [Online::replaceMin] on the range that is the whole of [v].  Every
    iteration but the last moves [index] to a child, so the loop body runs
    at most [size] times. *)
Definition replaceMin (v : list Player) (target : Player)
  : outcome (list Player) :=
  let size := length v in
  replaceMin_loop size (<[0:=target]> v) size 0.

(** The locals of [Online::rankIncoming] that live across iterations. *)
Record RankState : Type := mkRankState {
  count : Z;
  topReportPlayers : list Player;
  cutoffs : gmap N N
}.

(** One iteration of the [while] loop of [Online::rankIncoming], once
    [currPlayer] has been fetched. *)
Definition rank_step (reporting_interval : N) (st : RankState)
    (currPlayer : Player) : outcome RankState :=
  let count := (count st + 1)%Z in
  window ←
    (if (N.of_nat (length (topReportPlayers st)) <? reporting_interval)%N
     then Ok (std_make_heap player_gt (topReportPlayers st ++ [currPlayer]))
     else if player_gt currPlayer (topReportPlayers st !!! 0)
     then replaceMin (topReportPlayers st) currPlayer
     else Ok (topReportPlayers st));
  let cutoffs :=
    if (Z.to_N count mod reporting_interval =? 0)%N
       && negb (bool_decide (window = []))
    then <[Z.to_N count := level_ (window !!! 0)]> (cutoffs st)
    else cutoffs st in
  Ok (mkRankState count window cutoffs).

(** The [while (stream.remaining() > 0)] loop. *)
Fixpoint rankIncoming_loop (fuel : nat) (stream : VectorPlayerStream)
    (reporting_interval : N) (st : RankState)
  : outcome (VectorPlayerStream * RankState) :=
  if (0 <? remaining stream)%N then
    match fuel with
    | 0 => OutOfFuel
    | S fuel =>
        '(currPlayer, stream) ← nextPlayer stream;
        st ← rank_step reporting_interval st currPlayer;
        rankIncoming_loop fuel stream reporting_interval st
    end
  else Ok (stream, st).

(** [Online::rankIncoming]; the first component is [stream] after the call.
    The loop runs once per remaining player. *)
Definition rankIncoming (stream : VectorPlayerStream) (reporting_interval : N)
  : outcome (VectorPlayerStream * RankingResult) :=
  let fuel := N.to_nat (remaining stream) in
  let st := mkRankState 0 [] (cutoffs_ empty_result) in
  '(stream, st) ← rankIncoming_loop fuel stream reporting_interval st;
  let top := std_sort player_lt (topReportPlayers st) in
  Ok (stream, mkRankingResult top (cutoffs st)).

End Leaderboard.

(** * Vocabulary of the properties *)

(** [frame low high v v']: [v'] is [v] with the slots [low..high]
    rearranged among themselves and every other slot untouched. *)
Definition frame (low high : Z) (v v' : list Player) : Prop :=
  length v' = length v ∧
  v' ≡ₚ v ∧
  (∀ i : nat, ¬ (low ≤ i ≤ high)%Z → v' !!! i = v !!! i) ∧
  (∀ i : nat, (low ≤ i ≤ high)%Z → i < length v →
     ∃ j : nat, (low ≤ j ≤ high)%Z ∧ j < length v ∧ v' !!! i = v !!! j).

(** The slots [low..high] are non-decreasing by score. *)
Definition sorted_range (low high : Z) (v : list Player) : Prop :=
  ∀ i j : nat, (low ≤ i)%Z → i ≤ j → (j ≤ high)%Z → j < length v →
    (level_ (v !!! i) ≤ level_ (v !!! j))%N.

(** No slot before [k] scores above a slot from [k] on. *)
Definition split_at (k : Z) (v : list Player) : Prop :=
  ∀ i j : nat, (i < k)%Z → (k ≤ j)%Z → j < length v →
    (level_ (v !!! i) ≤ level_ (v !!! j))%N.

(** [top] is a choice of highest entries of [pool] under [le]: the pool
    splits into [top] and a rest that is nowhere above [top]. *)
Definition top_selection (le : relation Player) (pool top : list Player)
  : Prop :=
  ∃ rest, pool ≡ₚ rest ++ top ∧ ∀ x y, x ∈ rest → y ∈ top → le x y.

Definition level_le : relation Player := λ x y, (level_ x ≤ level_ y)%N.

(** [not_above x y]: [y] is not ordered below [x]. *)
Definition not_above `{PlayerOrder} : relation Player :=
  λ x y, player_lt y x = false.

(** Checkpoints recorded after [n] players: exactly the positive multiples
    of the interval up to [n]. *)
Definition keys_ok (k : N) (n : nat) (cuts : gmap N N) : Prop :=
  ∀ c, is_Some (cuts !! c) ↔ (0 < c ≤ N.of_nat n)%N ∧ (c mod k = 0)%N.

(** No recorded cutoff is above the score of a player in the window. *)
Definition floor_ok (cuts : gmap N N) (window : list Player) : Prop :=
  ∀ c l w, cuts !! c = Some l → w ∈ window → (l ≤ level_ w)%N.

(** Later checkpoints hold cutoffs at least as high. *)
Definition mono_ok (cuts : gmap N N) : Prop :=
  ∀ c1 c2 l1 l2, (c1 < c2)%N →
    cuts !! c1 = Some l1 → cuts !! c2 = Some l2 → (l1 ≤ l2)%N.

(** The checkpoint at the current count, if there is one, holds the score
    at the root of the window. *)
Definition last_ok (n : nat) (cuts : gmap N N) (window : list Player)
  : Prop :=
  ∀ l, cuts !! N.of_nat n = Some l → l = level_ (window !!! 0).

Section invariants.
Context `{order : PlayerOrder} `{stl : StdAlgorithm}.

(** The loop invariant of [replaceMin]: [v] is a min-heap but for the
    value at [index], which may be too large for its place; the parent of
    [index] is already below both children of [index]. *)
Definition heap_except (v : list Player) (index : nat) : Prop :=
  ∀ c, 0 < c < length v →
    ((c - 1) / 2 ≠ index → player_lt (v !!! c) (v !!! ((c - 1) / 2)) = false) ∧
    ((c - 1) / 2 = index → 0 < index →
       player_lt (v !!! c) (v !!! ((index - 1) / 2)) = false).

(** The loop body run over a list of fetched players. *)
Fixpoint rank_steps (reporting_interval : N) (st : RankState)
    (incoming : list Player) : outcome RankState :=
  match incoming with
  | [] => Ok st
  | currPlayer :: incoming =>
      st ← rank_step reporting_interval st currPlayer;
      rank_steps reporting_interval st incoming
  end.

(** What holds of the loop state after the players [seen] have been
    read. *)
Record rank_inv (k : N) (seen : list Player) (st : RankState) : Prop := {
  inv_count : count st = Z.of_nat (length seen);
  inv_heap : is_heap player_gt (topReportPlayers st);
  inv_size : length (topReportPlayers st) = length seen `min` N.to_nat k;
  inv_top : top_selection not_above seen (topReportPlayers st);
  inv_keys : keys_ok k (length seen) (cutoffs st);
  inv_floor : floor_ok (cutoffs st) (topReportPlayers st);
  inv_mono : mono_ok (cutoffs st);
  inv_last : last_ok (length seen) (cutoffs st) (topReportPlayers st)
}.

End invariants.

(** ** A reference implementation of the interfaces

    [Player.hpp] may compare by level alone; the standard algorithms may be
    realised by a merge sort.  Both meet the contracts above, so the
    theorems below are not vacuous, and the model can be run. *)

Definition level_lt : comparator := λ a b, (level_ a <? level_ b)%N.

(** [not_below comp a b]: [b] does not compare below [a]. *)
Definition not_below (comp : comparator) : relation Player :=
  λ a b, comp b a = false.

#[local] Instance not_below_dec comp : RelDecision (not_below comp) :=
  λ a b, decide (comp b a = false).

Definition ref_sort (comp : comparator) (v : list Player) : list Player :=
  merge_sort (not_below comp) v.

Definition ref_make_heap (comp : comparator) (v : list Player) : list Player :=
  merge_sort (not_below (λ a b, comp b a)) v.

Definition ref_pop_heap (comp : comparator) (v : list Player) : list Player :=
  match v with
  | [] => []
  | x :: v => ref_make_heap comp v ++ [x]
  end.

(** A roster of [n] players with the scores [1..n]. *)
Definition roster (n : nat) : list Player :=
  (λ i, mkPlayer "P" (N.of_nat i)) <$> seq 1 n.

(** ** Vocabulary of the further properties *)

(** A caller reading [n] players off a stream, one [nextPlayer] call
    each; the players come back in the order they were read. *)
Fixpoint read_players (n : nat) (s : VectorPlayerStream)
  : outcome (list Player * VectorPlayerStream) :=
  match n with
  | 0 => Ok ([], s)
  | S n =>
      '(p, s) ← nextPlayer s;
      '(ps, s) ← read_players n s;
      Ok (p :: ps, s)
  end.

(** What a recorded cutoff means: the entry keyed [c] is the lowest score
    among [k] highest of the first [c] players read. *)
Definition cutoff_meaning `{PlayerOrder} (k : N) (seen : list Player)
    (cuts : gmap N N) : Prop :=
  ∀ c l, cuts !! c = Some l →
    ∃ w, top_selection not_above (take (N.to_nat c) seen) w ∧
         length w = N.to_nat k ∧
         (∀ y, y ∈ w → (l ≤ level_ y)%N) ∧
         ∃ y, y ∈ w ∧ level_ y = l.

(** Players named after their scores. *)
Definition squad (levels : list N) : list Player :=
  (λ l, mkPlayer "P" l) <$> levels.

(** Ten players who all have the same score. *)
Definition tied_players : list Player :=
  (λ n, mkPlayer n 1)
    <$> ["a"; "b"; "c"; "d"; "e"; "f"; "g"; "h"; "i"; "j"]%string.

(** * Properties *)

(** ** Comparators *)

Section comparators.
Context (comp : comparator) (Hswo : StrictWeakOrder comp).

Lemma swo_irrefl a : comp a a = false.
Proof.
  destruct (comp a a) eqn:E; [|done].
  by rewrite (swo_asym _ Hswo _ _ E) in E.
Qed.

Lemma swo_trans a b c : comp a b = true → comp b c = true → comp a c = true.
Proof.
  intros Hab Hbc. destruct (comp a c) eqn:E; [done|].
  pose proof (swo_asym _ Hswo _ _ Hbc) as Hcb.
  by rewrite (swo_negtrans _ Hswo _ _ _ E Hcb) in Hab.
Qed.

Lemma swo_flip : StrictWeakOrder (λ a b, comp b a).
Proof.
  split.
  - intros a b. apply (swo_asym _ Hswo).
  - intros a b c Hab Hbc. by apply (swo_negtrans _ Hswo c b a).
Qed.

End comparators.

Section player_order.
Context `{order : PlayerOrder}.

Lemma player_gt_swo : StrictWeakOrder player_gt.
Proof. apply swo_flip, player_lt_swo. Qed.

Lemma not_lt_level a b : player_lt a b = false → (level_ b ≤ level_ a)%N.
Proof.
  intros Hab. destruct (decide (level_ a < level_ b)%N) as [Hlt|]; [|lia].
  by rewrite (player_lt_level _ _ Hlt) in Hab.
Qed.

Lemma is_sorted_ascending v : is_sorted player_lt v → ascending_by_level v.
Proof.
  intros Hv i j x y Hij Hx Hy.
  destruct (decide (i = j)) as [->|]; [by simplify_eq|].
  apply not_lt_level, (Hv i j); [lia|done..].
Qed.

End player_order.

(** ** Swapping two slots of a vector *)

Lemma length_swap v i j : length (swap v i j) = length v.
Proof.
  unfold swap. destruct (v !! i), (v !! j); by rewrite ?length_insert.
Qed.

Lemma lookup_swap_l v i j :
  i < length v → j < length v → swap v i j !! i = v !! j.
Proof.
  intros Hi Hj. unfold swap.
  destruct (lookup_lt_is_Some_2 v i Hi) as [a Ha].
  destruct (lookup_lt_is_Some_2 v j Hj) as [b Hb].
  rewrite Ha, Hb. destruct (decide (i = j)) as [->|].
  - rewrite list_lookup_insert_eq by (by rewrite length_insert). congruence.
  - rewrite list_lookup_insert_ne by done.
    by rewrite list_lookup_insert_eq.
Qed.

Lemma lookup_swap_r v i j :
  i < length v → j < length v → swap v i j !! j = v !! i.
Proof.
  intros Hi Hj. unfold swap.
  destruct (lookup_lt_is_Some_2 v i Hi) as [a Ha].
  destruct (lookup_lt_is_Some_2 v j Hj) as [b Hb].
  rewrite Ha, Hb. by rewrite list_lookup_insert_eq by (by rewrite length_insert).
Qed.

Lemma lookup_swap_ne v i j k : k ≠ i → k ≠ j → swap v i j !! k = v !! k.
Proof.
  intros Hi Hj. unfold swap. destruct (v !! i), (v !! j); [|done..].
  by rewrite !list_lookup_insert_ne.
Qed.

Lemma swap_perm v i j : swap v i j ≡ₚ v.
Proof.
  destruct (decide (i < length v ∧ j < length v)) as [[Hi Hj]|Hout].
  - apply Permutation_inj. split; [apply length_swap|].
    exists (λ k, if decide (k = i) then j else if decide (k = j) then i else k).
    split.
    + intros a b. repeat case_decide; congruence.
    + intros k. repeat case_decide; subst.
      * by apply lookup_swap_l.
      * by apply lookup_swap_r.
      * by apply lookup_swap_ne.
  - unfold swap. destruct (v !! i) eqn:Ei; [|done].
    destruct (v !! j) eqn:Ej; [|done].
    apply lookup_lt_Some in Ei, Ej. lia.
Qed.

Lemma lookup_total_swap_l v i j :
  i < length v → j < length v → swap v i j !!! i = v !!! j.
Proof. intros. by rewrite !list_lookup_total_alt, lookup_swap_l. Qed.

Lemma lookup_total_swap_r v i j :
  i < length v → j < length v → swap v i j !!! j = v !!! i.
Proof. intros. by rewrite !list_lookup_total_alt, lookup_swap_r. Qed.

Lemma lookup_total_swap_ne v i j k :
  k ≠ i → k ≠ j → swap v i j !!! k = v !!! k.
Proof. intros. by rewrite !list_lookup_total_alt, lookup_swap_ne. Qed.

(** ** Heaps *)

Lemma is_heap_total comp (v : list Player) :
  is_heap comp v ↔
  ∀ c, 0 < c < length v → comp (v !!! ((c - 1) / 2)) (v !!! c) = false.
Proof.
  split.
  - intros Hh c Hc. apply (Hh c); [lia| |].
    + apply list_lookup_lookup_total_lt. lia.
    + apply list_lookup_lookup_total_lt. lia.
  - intros Hh c x y Hc Hx Hy.
    apply list_lookup_total_correct in Hx as <-.
    pose proof (lookup_lt_Some _ _ _ Hy).
    apply list_lookup_total_correct in Hy as <-. apply Hh. lia.
Qed.

(** The root of a heap compares below none of its elements. *)
Lemma is_heap_root comp (Hswo : StrictWeakOrder comp) (v : list Player) i :
  is_heap comp v → i < length v → comp (v !!! 0) (v !!! i) = false.
Proof.
  rewrite is_heap_total. intros Hh.
  induction (lt_wf i) as [i _ IH]. intros Hi.
  destruct (decide (i = 0)) as [->|]; [by apply swo_irrefl|].
  apply (swo_negtrans _ Hswo _ (v !!! ((i - 1) / 2))).
  - apply IH; lia.
  - apply Hh. lia.
Qed.

Lemma is_heap_root_elem comp (Hswo : StrictWeakOrder comp) x v y :
  is_heap comp (x :: v) → y ∈ x :: v → comp x y = false.
Proof.
  intros Hh [i Hi]%list_elem_of_lookup.
  pose proof (lookup_lt_Some _ _ _ Hi).
  apply list_lookup_total_correct in Hi as <-.
  by apply (is_heap_root comp Hswo (x :: v) i).
Qed.

Section replaceMin.
Context `{order : PlayerOrder}.

Lemma heap_except_root h target :
  is_heap player_gt h → heap_except (<[0:=target]> h) 0.
Proof.
  rewrite is_heap_total. intros Hh c. rewrite length_insert. intros Hc.
  split; [|lia]. intros Hp.
  rewrite !list_lookup_total_insert_ne by lia. by apply Hh.
Qed.

Lemma heap_except_done v index :
  heap_except v index →
  (index * 2 + 1 < length v →
     player_lt (v !!! (index * 2 + 1)) (v !!! index) = false) →
  (index * 2 + 2 < length v →
     player_lt (v !!! (index * 2 + 2)) (v !!! index) = false) →
  is_heap player_gt v.
Proof.
  intros Hv Hl Hr. apply is_heap_total. intros c Hc. unfold player_gt.
  destruct (decide ((c - 1) / 2 = index)) as [Hp|Hp].
  - rewrite Hp. destruct (decide (c = index * 2 + 1)) as [->|]; [apply Hl; lia|].
    replace c with (index * 2 + 2) in * by lia. apply Hr; lia.
  - by apply Hv.
Qed.

(** Moving the smaller child up re-establishes the invariant one level
    down. *)
Lemma heap_except_descend v index s o :
  heap_except v index →
  s < length v →
  (s = index * 2 + 1 ∧ o = index * 2 + 2 ∨
   s = index * 2 + 2 ∧ o = index * 2 + 1) →
  player_lt (v !!! s) (v !!! index) = true →
  (o < length v → player_lt (v !!! o) (v !!! s) = false) →
  heap_except (swap v index s) s.
Proof.
  intros Hv Hs Hso Hlt Ho c. rewrite length_swap. intros Hc.
  pose proof player_lt_swo as Hswo.
  assert (index < s) by lia.
  split.
  - intros Hp. destruct (decide ((c - 1) / 2 = index)) as [Hpi|Hpi].
    + rewrite Hpi, (lookup_total_swap_l v index s) by lia.
      destruct (decide (c = s)) as [->|Hcs].
      * rewrite lookup_total_swap_r by lia. by apply (swo_asym _ Hswo).
      * rewrite lookup_total_swap_ne by lia.
        replace c with o by lia. apply Ho. lia.
    + destruct (decide (c = index)) as [->|Hci].
      * rewrite lookup_total_swap_l, lookup_total_swap_ne by lia.
        apply (Hv s); lia.
      * rewrite !lookup_total_swap_ne by lia. by apply Hv.
  - intros Hp _. replace ((s - 1) / 2) with index by lia.
    rewrite lookup_total_swap_ne, lookup_total_swap_l by lia.
    replace (v !!! s) with (v !!! ((c - 1) / 2)) by (by rewrite Hp).
    apply Hv; lia.
Qed.

Lemma replaceMin_loop_spec fuel v size index :
  size = length v → index < size → size - index ≤ fuel → heap_except v index →
  ∃ v', replaceMin_loop fuel v size index = Ok v' ∧
        v' ≡ₚ v ∧ length v' = size ∧ is_heap player_gt v'.
Proof.
  pose proof player_lt_swo as Hswo.
  revert v index.
  induction fuel as [|fuel IH]; intros v index Hsz Hi Hf Hv; [lia|].
  cbn [replaceMin_loop]. unfold less_at.
  set (l := index * 2 + 1).
  assert (∀ s o,
    s < size →
    (s = index * 2 + 1 ∧ o = index * 2 + 2 ∨
     s = index * 2 + 2 ∧ o = index * 2 + 1) →
    player_lt (v !!! s) (v !!! index) = true →
    (o < size → player_lt (v !!! o) (v !!! s) = false) →
    ∃ v', replaceMin_loop fuel (swap v index s) size s = Ok v' ∧
          v' ≡ₚ v ∧ length v' = size ∧ is_heap player_gt v') as Hdown.
  { intros s o Hs Hso Hlt Ho.
    destruct (IH (swap v index s) s) as (v' & Hrun & Hp & Hlen & Hh).
    - by rewrite length_swap.
    - done.
    - lia.
    - apply (heap_except_descend v index s o); [done|lia|done..|].
      intros ?. apply Ho. lia.
    - exists v'. split_and!; [done| |done..]. by rewrite Hp, swap_perm. }
  destruct (bool_decide (l < size) && player_lt (v !!! l) (v !!! index))
    eqn:El.
  - apply andb_true_iff in El as [Hl%bool_decide_eq_true Hlt].
    destruct (bool_decide (l + 1 < size)
              && player_lt (v !!! (l + 1)) (v !!! l)) eqn:Er.
    + apply andb_true_iff in Er as [Hr%bool_decide_eq_true Hrt].
      rewrite bool_decide_eq_true_2 by lia.
      apply (Hdown (l + 1) l); [done|lia| |].
      * by apply (swo_trans _ Hswo _ (v !!! l)).
      * intros _. by apply (swo_asym _ Hswo).
    + rewrite bool_decide_eq_true_2 by lia.
      apply (Hdown l (l + 1)); [done|lia|done|].
      intros Hr. apply andb_false_iff in Er as [Er|Er]; [|done].
      apply bool_decide_eq_false in Er. lia.
  - destruct (bool_decide (l + 1 < size)
              && player_lt (v !!! (l + 1)) (v !!! index)) eqn:Er.
    + apply andb_true_iff in Er as [Hr%bool_decide_eq_true Hrt].
      rewrite bool_decide_eq_true_2 by lia.
      apply (Hdown (l + 1) l); [done|lia|done|].
      intros Hl. apply andb_false_iff in El as [El|El].
      * apply bool_decide_eq_false in El. lia.
      * destruct (player_lt (v !!! l) (v !!! (l + 1))) eqn:E; [|done].
        by rewrite (swo_trans _ Hswo _ _ _ E Hrt) in El.
    + rewrite bool_decide_eq_false_2 by lia.
      exists v. split_and!; [done..|].
      apply (heap_except_done v index); [done| |].
      * intros Hl. apply andb_false_iff in El as [El|El]; [|done].
        apply bool_decide_eq_false in El. unfold l in El. lia.
      * intros Hr. apply andb_false_iff in Er as [Er|Er].
        -- apply bool_decide_eq_false in Er. unfold l in Er. lia.
        -- by replace (index * 2 + 2) with (l + 1) by (unfold l; lia).
Qed.

Lemma replaceMin_spec h target :
  h ≠ [] → is_heap player_gt h →
  ∃ h', replaceMin h target = Ok h' ∧ is_heap player_gt h' ∧
        length h' = length h ∧ h' ≡ₚ target :: tail h.
Proof.
  intros Hne Hh. destruct h as [|m h]; [done|]. unfold replaceMin.
  destruct (replaceMin_loop_spec (length (m :: h)) (<[0:=target]> (m :: h))
              (length (m :: h)) 0) as (h' & Hrun & Hp & Hlen & Hh').
  - by rewrite length_insert.
  - simpl. lia.
  - lia.
  - by apply heap_except_root.
  - exists h'. by split_and!.
Qed.

End replaceMin.

Lemma lookup_total_swap v i j k :
  i < length v → j < length v →
  swap v i j !!! k =
    if decide (k = i) then v !!! j
    else if decide (k = j) then v !!! i else v !!! k.
Proof.
  intros Hi Hj. repeat case_decide; subst.
  - by apply lookup_total_swap_l.
  - by apply lookup_total_swap_r.
  - by apply lookup_total_swap_ne.
Qed.

(** ** Partition, quicksort and quickselect *)

Lemma frame_refl low high v : frame low high v v.
Proof. split_and!; [done..|]. intros i ??. by exists i. Qed.

Lemma frame_trans low high v1 v2 v3 :
  frame low high v1 v2 → frame low high v2 v3 → frame low high v1 v3.
Proof.
  intros (Hl1 & Hp1 & Ho1 & Hi1) (Hl2 & Hp2 & Ho2 & Hi2). split_and!.
  - congruence.
  - by rewrite Hp2.
  - intros i Hi. rewrite Ho2, Ho1; done.
  - intros i Hi Hlen. destruct (Hi2 i) as (j & Hj & Hjl & ->); [done|lia|].
    destruct (Hi1 j) as (j' & Hj' & Hjl' & ->); [done|lia|]. by exists j'.
Qed.

Lemma frame_mono low high low' high' v v' :
  (low' ≤ low)%Z → (high ≤ high')%Z →
  frame low high v v' → frame low' high' v v'.
Proof.
  intros Hlow Hhigh (Hl & Hp & Ho & Hi). split_and!; [done..| |].
  - intros i Hout. apply Ho. lia.
  - intros i Hin Hlen.
    destruct (decide (low ≤ i ≤ high)%Z) as [Hin'|Hout].
    + destruct (Hi i) as (j & Hj & Hjl & ->); [done..|].
      exists j. split_and!; try done; lia.
    + exists i. split_and!; try done; try lia. by apply Ho.
Qed.

Lemma frame_swap low high v (i j : nat) :
  (low ≤ i ≤ high)%Z → (low ≤ j ≤ high)%Z → i < length v → j < length v →
  frame low high v (swap v i j).
Proof.
  intros Hi Hj Hil Hjl. split_and!.
  - apply length_swap.
  - apply swap_perm.
  - intros k Hk. apply lookup_total_swap_ne; lia.
  - intros k Hk Hkl. rewrite lookup_total_swap by done.
    repeat case_decide; [exists j|exists i|exists k]; split_and!; try done; lia.
Qed.

Lemma frame_split_low low high v v' :
  frame low high v v' → split_at low v → split_at low v'.
Proof.
  intros (Hl & Hp & Ho & Hi) Hs i j Hil Hjl Hjlen.
  rewrite (Ho i) by lia. rewrite Hl in Hjlen.
  destruct (decide (j ≤ high)%Z) as [Hjh|Hjh].
  - destruct (Hi j) as (j' & Hj' & Hjl' & ->); [lia|done|]. apply Hs; lia.
  - rewrite (Ho j) by lia. by apply Hs.
Qed.

Lemma frame_split_high low high v v' :
  frame low high v v' → split_at (high + 1) v → split_at (high + 1) v'.
Proof.
  intros (Hl & Hp & Ho & Hi) Hs i j Hil Hjl Hjlen.
  rewrite (Ho j) by lia. rewrite Hl in Hjlen.
  destruct (decide (low ≤ i)%Z) as [Hjh|Hjh].
  - destruct (Hi i) as (i' & Hi' & Hil' & ->); [lia|lia|]. apply Hs; lia.
  - rewrite (Ho i) by lia. by apply Hs.
Qed.

Lemma partition_loop_spec x v0 (low high : nat) steps players lower i :
  i + steps = high → low ≤ lower ≤ i → high < length players →
  players !!! high = x →
  frame low high v0 players →
  (∀ k, low ≤ k < lower → (level_ (players !!! k) ≤ level_ x)%N) →
  (∀ k, lower ≤ k < i → (level_ x < level_ (players !!! k))%N) →
  ∀ v lower', partition_loop x players lower i steps = (v, lower') →
    low ≤ lower' ≤ high ∧ frame low high v0 v ∧ v !!! high = x ∧
    (∀ k, low ≤ k < lower' → (level_ (v !!! k) ≤ level_ x)%N) ∧
    (∀ k, lower' ≤ k < high → (level_ x < level_ (v !!! k))%N).
Proof.
  revert players lower i.
  induction steps as [|steps IH];
    intros players lower i Hhigh Hlow Hlen Hx Hfr Hle Hgt v lower' Hrun.
  { simpl in Hrun. injection Hrun as <- <-. assert (i = high) as -> by lia.
    split_and!; try done; lia. }
  cbn [partition_loop] in Hrun.
  destruct (level_ (players !!! i) <=? level_ x)%N eqn:Ecmp.
  - apply N.leb_le in Ecmp.
    apply (IH (swap players lower i) (S lower) (S i)); [lia|lia|..|done].
    + by rewrite length_swap.
    + rewrite lookup_total_swap_ne; [done|lia..].
    + apply (frame_trans _ _ _ players); [done|].
      apply frame_swap; lia.
    + intros k Hk. rewrite lookup_total_swap by lia.
      repeat case_decide; [done|lia|apply Hle; lia].
    + intros k Hk. rewrite lookup_total_swap by lia.
      repeat case_decide; [lia|apply Hgt; lia|apply Hgt; lia].
  - apply N.leb_gt in Ecmp.
    apply (IH players lower (S i)); [lia|lia|done..| |done].
    intros k Hk. destruct (decide (k = i)) as [->|]; [done|]. apply Hgt. lia.
Qed.

Lemma partition_spec players low high v pivot :
  (0 ≤ low)%Z → (low ≤ high)%Z → (high < length players)%Z →
  partition players low high = (v, pivot) →
  (low ≤ pivot ≤ high)%Z ∧ frame low high players v ∧
  (∀ k : nat, (low ≤ k < pivot)%Z →
     (level_ (v !!! k) ≤ level_ (v !!! Z.to_nat pivot))%N) ∧
  (∀ k : nat, (pivot < k ≤ high)%Z →
     (level_ (v !!! Z.to_nat pivot) < level_ (v !!! k))%N).
Proof.
  intros Hlow Hlh Hhigh. unfold partition.
  destruct (partition_loop _ _ _ _ _) as [v1 lower] eqn:Eloop.
  intros [= <- <-].
  pose proof (partition_loop_spec (players !!! Z.to_nat high) players
    (Z.to_nat low) (Z.to_nat high) (Z.to_nat (high - low)) players
    (Z.to_nat low) (Z.to_nat low)) as Hloop.
  rewrite !Z2Nat.id in Hloop by lia.
  destruct (Hloop ltac:(lia) ltac:(lia) ltac:(lia) eq_refl
              (frame_refl _ _ _) ltac:(intros; lia) ltac:(intros; lia)
              _ _ Eloop)
    as (Hrange & Hfr & Hx & Hle & Hgt).
  pose proof Hfr as (Hlen & _).
  rewrite Nat2Z.id.
  refine (conj _ (conj _ (conj _ _))).
  - lia.
  - apply (frame_trans _ _ _ v1); [done|]. apply frame_swap; lia.
  - intros k Hk. rewrite lookup_total_swap_l, Hx by lia.
    rewrite lookup_total_swap_ne by lia. apply Hle. lia.
  - intros k Hk. rewrite lookup_total_swap_l, Hx by lia.
    rewrite lookup_total_swap by lia.
    repeat case_decide; [lia|apply Hgt; lia|apply Hgt; lia].
Qed.

Lemma quickSort_spec fuel players low high :
  (0 ≤ low)%Z → (high < length players)%Z → Z.to_nat (high - low) ≤ fuel →
  ∃ v, quickSort fuel players low high = Ok v ∧
       frame low high players v ∧ sorted_range low high v.
Proof.
  revert players low high.
  induction fuel as [|fuel IH]; intros players low high Hlow Hhigh Hfuel;
    cbn [quickSort]; destruct (Z.ltb_spec low high) as [Hlt|Hge];
    try lia;
    try (exists players; split_and!; [done|apply frame_refl|];
         intros i j ????; by replace j with i by lia).
  destruct (partition players low high) as [v1 pivot] eqn:Epart.
  apply partition_spec in Epart as (Hpivot & Hfr1 & Hle & Hgt); [|lia..].
  pose proof Hfr1 as (Hlen1 & _).
  destruct (IH v1 low (pivot - 1)%Z) as (v2 & -> & Hfr2 & Hs2); [lia..|].
  pose proof Hfr2 as (Hlen2 & _ & Hout2 & Hin2).
  cbn [mbind outcome_bind].
  destruct (IH v2 (pivot + 1)%Z high) as (v3 & -> & Hfr3 & Hs3); [lia..|].
  pose proof Hfr3 as (Hlen3 & _ & Hout3 & Hin3).
  exists v3. split_and!; [done| |].
  - apply (frame_trans _ _ _ v1); [done|].
    apply (frame_trans _ _ _ v2).
    + apply (frame_mono low (pivot - 1)); [lia..|done].
    + apply (frame_mono (pivot + 1) high); [lia..|done].
  - assert (∀ i : nat, (low ≤ i < pivot)%Z →
              (level_ (v3 !!! i) ≤ level_ (v1 !!! Z.to_nat pivot))%N) as Hleft.
    { intros i Hi. rewrite Hout3 by lia.
      destruct (Hin2 i) as (i' & Hi' & _ & ->); [lia..|]. apply Hle. lia. }
    assert (∀ j : nat, (pivot < j ≤ high)%Z →
              (level_ (v1 !!! Z.to_nat pivot) < level_ (v3 !!! j))%N) as Hright.
    { intros j Hj. destruct (Hin3 j) as (j' & Hj' & _ & ->); [lia..|].
      rewrite Hout2 by lia. apply Hgt. lia. }
    assert (v3 !!! Z.to_nat pivot = v1 !!! Z.to_nat pivot) as Hmid.
    { rewrite Hout3, Hout2 by lia. done. }
    intros i j Hi Hij Hj Hjlen.
    destruct (decide (j < pivot)%Z); [|destruct (decide (pivot < i)%Z)].
    + rewrite (Hout3 i), (Hout3 j) by lia. apply Hs2; lia.
    + apply Hs3; lia.
    + destruct (decide (Z.of_nat i = pivot)) as [Hip|Hip];
        destruct (decide (Z.of_nat j = pivot)) as [Hjp|Hjp].
      * by replace j with i by lia.
      * replace i with (Z.to_nat pivot) by lia. rewrite Hmid.
        apply N.lt_le_incl, Hright. lia.
      * replace j with (Z.to_nat pivot) by lia. rewrite Hmid.
        apply Hleft. lia.
      * etrans; [apply (Hleft i); lia|].
        apply N.lt_le_incl, Hright. lia.
Qed.

Lemma quickSelect_spec fuel players low high k :
  (0 ≤ low)%Z → (high < length players)%Z → (low ≤ high + 1)%Z →
  (low ≤ k ≤ high + 1)%Z → Z.to_nat (high - low) ≤ fuel →
  split_at low players → split_at (high + 1) players →
  ∃ v, quickSelect fuel players low high k = Ok v ∧
       frame low high players v ∧ split_at k v.
Proof.
  revert players low high.
  induction fuel as [|fuel IH];
    intros players low high Hlow Hhigh Hlh Hk Hfuel Hsl Hsh;
    cbn [quickSelect]; destruct (Z.ltb_spec low high) as [Hlt|Hge];
    try lia;
    try (exists players; split_and!; [done|apply frame_refl|];
         destruct (decide (k = low)) as [->|]; [done|];
         by replace k with (high + 1)%Z by lia).
  destruct (partition players low high) as [v1 pivot] eqn:Epart.
  apply partition_spec in Epart as (Hpivot & Hfr1 & Hle & Hgt); [|lia..].
  pose proof Hfr1 as (Hlen1 & _).
  pose proof (frame_split_low _ _ _ _ Hfr1 Hsl) as Hsl1.
  pose proof (frame_split_high _ _ _ _ Hfr1 Hsh) as Hsh1.
  assert (split_at pivot v1) as Hsp.
  { intros i j Hi Hj Hjlen.
    destruct (decide (i < low)%Z); [apply Hsl1; lia|].
    destruct (decide (high < j)%Z); [apply Hsh1; lia|].
    etrans; [apply (Hle i); lia|].
    destruct (decide (Z.of_nat j = pivot)) as [Hjp|Hjp].
    - by replace (Z.to_nat pivot) with j by lia.
    - apply N.lt_le_incl, Hgt. lia. }
  assert (split_at (pivot + 1) v1) as Hsp1.
  { intros i j Hi Hj Hjlen.
    destruct (decide (i < low)%Z); [apply Hsl1; lia|].
    destruct (decide (high < j)%Z); [apply Hsh1; lia|].
    etrans; [|apply N.lt_le_incl, (Hgt j); lia].
    destruct (decide (Z.of_nat i = pivot)) as [Hip|Hip].
    - by replace (Z.to_nat pivot) with i by lia.
    - apply Hle. lia. }
  destruct (Z.eqb_spec pivot k) as [->|Hne].
  { by exists v1. }
  destruct (Z.ltb_spec pivot k) as [Hpk|Hpk].
  - destruct (IH v1 (pivot + 1)%Z high) as (v2 & -> & Hfr2 & Hs2);
      [lia..|done|done|].
    exists v2. split_and!; [done| |done].
    apply (frame_trans _ _ _ v1); [done|].
    apply (frame_mono (pivot + 1) high); [lia..|done].
  - destruct (IH v1 low (pivot - 1)%Z) as (v2 & -> & Hfr2 & Hs2);
      [lia..|done| |].
    { by replace (pivot - 1 + 1)%Z with pivot by lia. }
    exists v2. split_and!; [done| |done].
    apply (frame_trans _ _ _ v1); [done|].
    apply (frame_mono low (pivot - 1)); [lia..|done].
Qed.

(** ** Selecting the highest entries *)

Lemma not_above_level_le `{PlayerOrder} x y : not_above x y → level_le x y.
Proof. apply not_lt_level. Qed.

Lemma top_selection_weaken (le le' : relation Player) pool top :
  (∀ x y, le x y → le' x y) →
  top_selection le pool top → top_selection le' pool top.
Proof. intros Hle (rest & Hp & Hr). exists rest. split; [done|]. eauto. Qed.

Lemma top_selection_perm le pool pool' top top' :
  pool ≡ₚ pool' → top ≡ₚ top' →
  top_selection le pool top → top_selection le pool' top'.
Proof.
  intros Hp Ht (rest & Hpool & Hr). exists rest. split.
  - by rewrite <-Hp, <-Ht.
  - intros x y Hx Hy. apply Hr; [done|]. by rewrite Ht.
Qed.

(** The scores of the [n] highest entries are determined by the pool. *)
Lemma highest_scores_unique (rest1 top1 rest2 top2 : list N) :
  rest1 ++ top1 ≡ₚ rest2 ++ top2 → length top1 = length top2 →
  (∀ x y, x ∈ rest1 → y ∈ top1 → (x ≤ y)%N) →
  (∀ x y, x ∈ rest2 → y ∈ top2 → (x ≤ y)%N) →
  top1 ≡ₚ top2.
Proof.
  intros Hp Hlen H1 H2.
  assert (∀ rest top : list N,
    (∀ x y, x ∈ rest → y ∈ top → (x ≤ y)%N) →
    StronglySorted N.le (merge_sort N.le rest ++ merge_sort N.le top)) as Hs.
  { intros rest top Hrt. apply StronglySorted_app; split_and!.
    - intros x y. rewrite !merge_sort_Permutation. apply Hrt.
    - apply (StronglySorted_merge_sort N.le).
    - apply (StronglySorted_merge_sort N.le). }
  assert (merge_sort N.le rest1 ++ merge_sort N.le top1 =
          merge_sort N.le rest2 ++ merge_sort N.le top2) as Heq.
  { apply (StronglySorted_unique N.le); [by apply Hs..|].
    by rewrite !merge_sort_Permutation. }
  apply app_inj_2 in Heq as [_ Heq].
  - by rewrite <-(merge_sort_Permutation N.le top1), Heq,
      merge_sort_Permutation.
  - by rewrite !(Permutation_length (merge_sort_Permutation _ _)).
Qed.

Lemma top_selection_scores pool1 pool2 top1 top2 :
  pool1 ≡ₚ pool2 → length top1 = length top2 →
  top_selection level_le pool1 top1 → top_selection level_le pool2 top2 →
  level_ <$> top1 ≡ₚ level_ <$> top2.
Proof.
  intros Hp Hlen (rest1 & Hp1 & Hr1) (rest2 & Hp2 & Hr2).
  apply (highest_scores_unique (level_ <$> rest1) _ (level_ <$> rest2)).
  - by rewrite <-!fmap_app, <-Hp1, <-Hp2, Hp.
  - by rewrite !length_fmap.
  - intros ?? (x & -> & Hx)%list_elem_of_fmap (y & -> & Hy)%list_elem_of_fmap.
    by apply Hr1.
  - intros ?? (x & -> & Hx)%list_elem_of_fmap (y & -> & Hy)%list_elem_of_fmap.
    by apply Hr2.
Qed.

(** ** The offline rankers *)

(** The double computation and the integer division agree on every size
    below 4096. *)
Lemma decile_double_agrees :
  forallb (λ n, (Double.decile (Z.of_nat n) =? Z.of_nat (decile n))%Z)
    (seq 0 4096) = true.
Proof. vm_compute. reflexivity. Qed.

(** They also agree at the sizes where the product lies closest to an
    integer, up to the largest [int]. *)
Lemma decile_double_agrees_large :
  forallb (λ n, (Double.decile n =? n / 10)%Z) Double.boundary_sizes = true.
Proof. vm_compute. reflexivity. Qed.

Lemma decile_le n : decile n ≤ n.
Proof. unfold decile. lia. Qed.

Lemma quickSelectRank_spec players :
  ∃ v top,
    quickSelectRank players = Ok (v, mkRankingResult top ∅) ∧
    v ≡ₚ players ∧
    length top = decile (length players) ∧
    ascending_by_level top ∧
    top_selection level_le players top.
Proof.
  unfold quickSelectRank.
  set (n := length players). pose proof (decile_le n) as Hdec.
  set (topTen := (n - decile n)%Z).
  destruct (quickSelect_spec n players 0 (n - 1) topTen)
    as (v1 & -> & Hfr1 & Hsp1); [unfold topTen, n in *; lia..| | |].
  { intros i j ?. lia. }
  { intros i j ???. unfold n in *. lia. }
  cbn [mbind outcome_bind].
  pose proof Hfr1 as (Hlen1 & Hperm1 & _).
  destruct (quickSort_spec n v1 topTen (n - 1))
    as (v2 & -> & Hfr2 & Hs2); [unfold topTen, n in *; lia..|].
  cbn [mbind outcome_bind].
  pose proof Hfr2 as (Hlen2 & Hperm2 & _).
  pose proof (frame_split_low _ _ _ _ Hfr2 Hsp1) as Hsp2.
  exists v2, (drop (Z.to_nat topTen) v2). split_and!.
  - done.
  - by rewrite Hperm2.
  - rewrite length_drop. unfold topTen, n in *. lia.
  - intros i j x y Hij Hx Hy. rewrite lookup_drop in Hx, Hy.
    pose proof (lookup_lt_Some _ _ _ Hy).
    apply list_lookup_total_correct in Hx as <-, Hy as <-.
    apply Hs2; unfold topTen, n in *; lia.
  - exists (take (Z.to_nat topTen) v2). split.
    + by rewrite take_drop, Hperm2.
    + intros x y [i Hi]%list_elem_of_lookup [j Hj]%list_elem_of_lookup.
      apply lookup_take_Some in Hi as [Hi Hik]. rewrite lookup_drop in Hj.
      pose proof (lookup_lt_Some _ _ _ Hj).
      apply list_lookup_total_correct in Hi as <-, Hj as <-.
      apply Hsp2; unfold topTen, n in *; lia.
Qed.

Section heapRank.
Context `{order : PlayerOrder} `{stl : StdAlgorithm}.

Lemma pop_loop_spec (heap : list Player) j :
  is_heap player_lt heap → j ≤ length heap →
  let v := foldl pop_heap_before heap (seq 0 j) in
  length v = length heap ∧ v ≡ₚ heap ∧
  is_heap player_lt (take (length heap - j) v) ∧
  ∀ x y, x ∈ take (length heap - j) v → y ∈ drop (length heap - j) v →
    not_above x y.
Proof.
  intros Hheap. induction j as [|j IH]; intros Hj; cbn zeta.
  { simpl. rewrite Nat.sub_0_r, firstn_all, drop_all.
    split_and!; [done..|]. intros x y _ Hy. by apply elem_of_nil in Hy. }
  destruct IH as (Hlen & Hperm & Hh & Hsel); [lia|].
  rewrite seq_S, foldl_app. simpl.
  set (v := foldl pop_heap_before heap (seq 0 j)) in *.
  unfold pop_heap_before. rewrite Hlen.
  destruct (take (length heap - j) v) as [|x t] eqn:Etake.
  { apply (f_equal length) in Etake. rewrite length_take in Etake.
    simpl in Etake. lia. }
  destruct (pop_heap_spec player_lt x t player_lt_swo Hh)
    as (h & -> & Hpt & Hhh).
  assert (length h = length heap - S j) as Hlh.
  { rewrite Hpt. apply (f_equal length) in Etake.
    rewrite length_take in Etake. simpl in Etake. lia. }
  rewrite <-(assoc_L (++)). simpl.
  rewrite <-Hlh, take_app_length, drop_app_length.
  split_and!.
  - rewrite length_app. simpl. rewrite length_drop. lia.
  - etrans; [|exact Hperm]. rewrite <-Permutation_middle, Hpt.
    change (x :: t ++ ?d) with ((x :: t) ++ d).
    by rewrite <-Etake, take_drop.
  - done.
  - intros a b Ha [->|Hb]%elem_of_cons.
    + apply (is_heap_root_elem player_lt player_lt_swo x t); [done|].
      right. by rewrite <-Hpt.
    + apply Hsel; [|done]. right. by rewrite <-Hpt.
Qed.

Lemma heapRank_spec players :
  ∃ v top,
    heapRank players = (v, mkRankingResult top ∅) ∧
    v ≡ₚ players ∧
    length top = decile (length players) ∧
    is_sorted player_lt top ∧
    top_selection not_above players top.
Proof.
  unfold heapRank.
  set (n := length players). pose proof (decile_le n) as Hdec.
  set (heap := std_make_heap player_lt players).
  assert (length heap = n) as Hlen by apply Permutation_length, make_heap_perm.
  destruct (pop_loop_spec heap (decile n)) as (Hlv & Hperm & _ & Hsel).
  { apply make_heap_is_heap, player_lt_swo. }
  { lia. }
  set (v := foldl pop_heap_before heap (seq 0 (decile n))) in *.
  eexists _, _. split_and!.
  - done.
  - rewrite Hperm. apply make_heap_perm.
  - rewrite (Permutation_length (sort_perm _ _)), length_drop. lia.
  - apply sort_is_sorted, player_lt_swo.
  - exists (take (length v - decile n) v). split.
    + rewrite sort_perm, take_drop, Hperm. symmetry. apply make_heap_perm.
    + intros x y Hx Hy. rewrite sort_perm in Hy.
      rewrite Hlv in Hx, Hy. by apply Hsel.
Qed.

End heapRank.

(** ** The player stream *)

Lemma remaining_pending s :
  stream_ok s → remaining s = N.of_nat (length (pending s)).
Proof.
  intros [Hidx Hsize]. unfold remaining, pending. rewrite length_drop.
  rewrite Z.mod_small by (unfold size_t_modulus in *; lia). lia.
Qed.

Lemma stream_ok_new players :
  (length players < size_t_modulus)%Z → stream_ok (VectorPlayerStream_new players).
Proof. intros Hsize. split; [simpl; lia|done]. Qed.

Lemma pending_new players : pending (VectorPlayerStream_new players) = players.
Proof. done. Qed.

Lemma nextPlayer_pending s p rest :
  stream_ok s → pending s = p :: rest →
  ∃ s', nextPlayer s = Ok (p, s') ∧ stream_ok s' ∧ pending s' = rest ∧
        players_ s' = players_ s.
Proof.
  intros [Hidx Hsize] Hpend. unfold nextPlayer, pending in *.
  assert (N.to_nat (currIndex s) < length (players_ s)) as Hlt.
  { apply (f_equal length) in Hpend. rewrite length_drop in Hpend.
    simpl in Hpend. lia. }
  destruct (N.leb_spec (N.of_nat (length (players_ s))) (currIndex s)); [lia|].
  exists (mkStream (players_ s) (currIndex s + 1)). split_and!; [| |simpl|done].
  - do 2 f_equal. apply list_lookup_total_correct.
    rewrite <-(Nat.add_0_r (N.to_nat _)), <-lookup_drop. by rewrite Hpend.
  - split; simpl; [lia|done].
  - replace (N.to_nat (currIndex s + 1)) with (N.to_nat (currIndex s) + 1)
      by lia.
    by rewrite <-drop_drop, Hpend.
Qed.

(** ** The online ranker *)

Section rankIncoming.
Context `{order : PlayerOrder} `{stl : StdAlgorithm}.

Lemma rankIncoming_loop_steps fuel s k st :
  stream_ok s → length (pending s) ≤ fuel →
  ∃ s', stream_ok s' ∧ pending s' = [] ∧ players_ s' = players_ s ∧
    rankIncoming_loop fuel s k st =
      (st' ← rank_steps k st (pending s); Ok (s', st')).
Proof.
  revert s st. induction fuel as [|fuel IH]; intros s st Hok Hfuel;
    cbn [rankIncoming_loop]; rewrite (remaining_pending s Hok);
    destruct (pending s) as [|p rest] eqn:Hpend; simpl in Hfuel; try lia;
    try (exists s; by split_and!).
  destruct (N.ltb_spec 0 (N.of_nat (length (p :: rest)))) as [_|?];
    [|simpl in *; lia].
  destruct (nextPlayer_pending s p rest Hok Hpend)
    as (s1 & -> & Hok1 & Hpend1 & Hplayers1).
  cbn [mbind outcome_bind rank_steps].
  destruct (rank_step k st p) as [st1| |]; cbn [mbind outcome_bind].
  - destruct (IH s1 st1 Hok1) as (s' & Hok' & Hpend' & Hplayers' & ->).
    { rewrite Hpend1. lia. }
    exists s'. rewrite Hpend1. split_and!; [done..|congruence|done].
  - exists (mkStream (players_ s) (N.of_nat (length (players_ s)))).
    destruct Hok as [_ Hsize].
    split_and!; [split; simpl; [lia|done]| |done..].
    unfold pending. simpl. rewrite Nat2N.id. apply drop_all.
  - exists (mkStream (players_ s) (N.of_nat (length (players_ s)))).
    destruct Hok as [_ Hsize].
    split_and!; [split; simpl; [lia|done]| |done..].
    unfold pending. simpl. rewrite Nat2N.id. apply drop_all.
Qed.

Lemma min_heap_root_level (window : list Player) w :
  is_heap player_gt window → w ∈ window →
  (level_ (window !!! 0%nat) ≤ level_ w)%N.
Proof.
  intros Hh Hw. destruct window as [|m t]; [by apply elem_of_nil in Hw|].
  apply not_lt_level.
  apply (is_heap_root_elem player_gt player_gt_swo m t w Hh Hw).
Qed.

Lemma record_cutoff k n cuts (window : list Player) :
  (0 < k)%N → window ≠ [] → is_heap player_gt window →
  keys_ok k n cuts → floor_ok cuts window → mono_ok cuts →
  let count := (Z.of_nat n + 1)%Z in
  let cuts' :=
    if (Z.to_N count mod k =? 0)%N && negb (bool_decide (window = []))
    then <[Z.to_N count := level_ (window !!! 0)]> cuts else cuts in
  keys_ok k (S n) cuts' ∧ floor_ok cuts' window ∧ mono_ok cuts' ∧
  last_ok (S n) cuts' window.
Proof.
  intros Hk Hne Hh Hkeys Hfloor Hmono. cbn zeta. unfold keys_ok in *.
  replace (Z.to_N (n + 1)) with (N.of_nat (S n)) by lia.
  rewrite (bool_decide_eq_false_2 (window = [])) by done.
  rewrite andb_true_r.
  assert (cuts !! N.of_nat (S n) = None) as Hfresh.
  { apply eq_None_not_Some. intros ?%Hkeys. lia. }
  destruct (N.eqb_spec (N.of_nat (S n) mod k) 0) as [Hmod|Hmod].
  - split_and!.
    + intros c. destruct (decide (c = N.of_nat (S n))) as [->|Hc].
      * rewrite lookup_insert_eq. split; [intros _; lia|by eauto].
      * rewrite lookup_insert_ne by done. rewrite Hkeys. lia.
    + intros c l w. destruct (decide (c = N.of_nat (S n))) as [->|Hc].
      * rewrite lookup_insert_eq. intros [= <-]. by apply min_heap_root_level.
      * rewrite lookup_insert_ne by done. apply Hfloor.
    + intros c1 c2 l1 l2 Hlt.
      destruct (decide (c2 = N.of_nat (S n))) as [->|Hc2].
      * rewrite lookup_insert_ne, lookup_insert_eq by lia.
        intros H1 [= <-]. apply (Hfloor c1); [done|].
        apply list_elem_of_lookup. exists 0.
        apply list_lookup_lookup_total_lt. destruct window; [done|simpl; lia].
      * rewrite (lookup_insert_ne _ _ c2) by done. intros H1 H2.
        assert (is_Some (cuts !! c2)) as Hs2 by eauto.
        apply Hkeys in Hs2. rewrite lookup_insert_ne in H1 by lia.
        by apply (Hmono c1 c2).
    + intros l. rewrite lookup_insert_eq. by intros [= <-].
  - split_and!; [|done..|].
    + intros c. rewrite Hkeys. split; [lia|]. intros [Hc Hcm].
      destruct (decide (c = N.of_nat (S n))) as [->|]; [done|lia].
    + intros l. by rewrite Hfresh.
Qed.

Lemma rank_inv_init k : rank_inv k [] (mkRankState 0 [] ∅).
Proof.
  split; simpl; try done.
  - exists []. split; [done|]. intros x y Hx. by apply elem_of_nil in Hx.
  - intros c. rewrite lookup_empty. split; [by intros [??]|lia].
Qed.

Lemma rank_step_inv k seen st currPlayer :
  (0 < k)%N → rank_inv k seen st →
  ∃ st', rank_step k st currPlayer = Ok st' ∧
         rank_inv k (seen ++ [currPlayer]) st'.
Proof.
  intros Hk [Hcount Hheap Hsize (rest & Hperm & Hrest) Hkeys Hfloor Hmono _].
  pose proof player_lt_swo as Hswo.
  unfold rank_step. rewrite Hcount.
  set (window := topReportPlayers st) in *.
  assert (∀ window',
    window' ≠ [] → is_heap player_gt window' →
    length window' = length (seen ++ [currPlayer]) `min` N.to_nat k →
    top_selection not_above (seen ++ [currPlayer]) window' →
    floor_ok (cutoffs st) window' →
    ∃ st',
      Ok (mkRankState (length seen + 1)%Z window'
            (if (Z.to_N (length seen + 1) mod k =? 0)%N
                && negb (bool_decide (window' = []))
             then <[Z.to_N (length seen + 1) := level_ (window' !!! 0)]>
                    (cutoffs st)
             else cutoffs st)) = Ok st' ∧
      rank_inv k (seen ++ [currPlayer]) st') as Hrecord.
  { intros window' Hne Hh Hlen Htop Hfl.
    destruct (record_cutoff k (length seen) (cutoffs st) window')
      as (Hk' & Hf' & Hm' & Hl'); [done..|].
    eexists. split; [done|].
    split; simpl; rewrite ?length_app; simpl;
      rewrite ?Nat.add_1_r; try done; [lia|].
    rewrite Hlen, length_app. cbn [length]. lia. }
  destruct (N.ltb_spec (N.of_nat (length window)) k) as [Hroom|Hfull];
    cbn [mbind outcome_bind].
  - (* the window still has room *)
    assert (length window = length seen) as Hws by lia.
    assert (rest = []) as ->.
    { apply Permutation_length in Hperm. rewrite length_app in Hperm.
      apply length_zero_iff_nil. lia. }
    apply Hrecord.
    + intros Hnil. apply (f_equal length) in Hnil.
      rewrite (Permutation_length (make_heap_perm _ _)), length_app in Hnil.
      simpl in Hnil. lia.
    + apply make_heap_is_heap, player_gt_swo.
    + rewrite (Permutation_length (make_heap_perm _ _)), !length_app.
      simpl. lia.
    + exists []. split.
      * simpl in *. by rewrite make_heap_perm, Hperm.
      * intros x y Hx. by apply elem_of_nil in Hx.
    + intros c l w Hc. assert (is_Some (cutoffs st !! c)) as Hs by eauto.
      apply Hkeys in Hs as [Hrange Hmod].
      rewrite N.mod_small in Hmod by lia. lia.
  - assert (length window = N.to_nat k) as Hws by lia.
    destruct window as [|m t] eqn:Ewin; [simpl in Hws; lia|].
    change ((m :: t) !!! 0) with m.
    assert (∀ y, y ∈ m :: t → player_lt y m = false) as Hroot.
    { intros y Hy.
      apply (is_heap_root_elem player_gt player_gt_swo m t y Hheap Hy). }
    unfold player_gt at 1.
    destruct (player_lt m currPlayer) eqn:Ecmp.
    + (* the minimum is evicted *)
      destruct (replaceMin_spec (m :: t) currPlayer)
        as (window' & -> & Hh' & Hlen' & Hperm'); [done..|].
      cbn [mbind outcome_bind]. simpl in Hperm'.
      apply Hrecord.
      * intros ->. simpl in Hlen'. lia.
      * done.
      * rewrite Hlen', Hws, length_app. simpl. lia.
      * exists (m :: rest). split.
        -- rewrite Hperm', Hperm. solve_Permutation.
        -- intros x y Hx Hy. rewrite Hperm' in Hy. unfold not_above.
           apply elem_of_cons in Hx as [->|Hx], Hy as [->|Hy].
           ++ by apply (swo_asym _ Hswo).
           ++ apply Hroot. by right.
           ++ destruct (player_lt currPlayer x) eqn:E; [|done].
              rewrite <-(Hrest x m Hx ltac:(left)). symmetry.
              by apply (swo_trans _ Hswo _ currPlayer).
           ++ apply Hrest; [done|by right].
      * intros c l w Hc Hw. rewrite Hperm' in Hw.
        apply elem_of_cons in Hw as [->|Hw].
        -- etrans; [apply (Hfloor c l m Hc); by left|].
           apply not_lt_level. by apply (swo_asym _ Hswo).
        -- apply (Hfloor c l w Hc). by right.
    + (* the incoming player does not qualify *)
      cbn [mbind outcome_bind]. apply Hrecord.
      * done.
      * done.
      * rewrite Hws, length_app. simpl. lia.
      * exists (currPlayer :: rest). split.
        -- rewrite Hperm. solve_Permutation.
        -- intros x y [->|Hx]%elem_of_cons Hy; [|by apply Hrest].
           apply (swo_negtrans _ Hswo _ m); [by apply Hroot|done].
      * done.
Qed.

Lemma rank_steps_inv k seen st incoming :
  (0 < k)%N → rank_inv k seen st →
  ∃ st', rank_steps k st incoming = Ok st' ∧ rank_inv k (seen ++ incoming) st'.
Proof.
  intros Hk. revert seen st.
  induction incoming as [|p incoming IH]; intros seen st Hinv.
  { exists st. by rewrite app_nil_r. }
  destruct (rank_step_inv k seen st p Hk Hinv) as (st1 & Hstep & Hinv1).
  destruct (IH _ _ Hinv1) as (st' & Hrun & Hinv').
  exists st'. simpl. rewrite Hstep. cbn [mbind outcome_bind].
  split; [done|]. by rewrite <-(assoc_L (++)) in Hinv'.
Qed.

(** Everything the rest of the development needs to know of a run of
    [rankIncoming]. *)
Lemma rankIncoming_spec s k :
  stream_ok s → (0 < k)%N →
  ∃ s' window cuts,
    rankIncoming s k =
      Ok (s', mkRankingResult (std_sort player_lt window) cuts) ∧
    remaining s' = 0%N ∧
    rank_inv k (pending s) (mkRankState (length (pending s)) window cuts).
Proof.
  intros Hok Hk. unfold rankIncoming.
  change (cutoffs_ empty_result) with (∅ : gmap N N).
  destruct (rankIncoming_loop_steps (N.to_nat (remaining s)) s k
              (mkRankState 0 [] ∅) Hok)
    as (s' & Hok' & Hpend' & _ & ->).
  { rewrite remaining_pending by done. lia. }
  destruct (rank_steps_inv k [] (mkRankState 0 [] ∅) (pending s) Hk
              (rank_inv_init k)) as ([n window cuts] & Hrun & Hinv).
  simpl in Hrun. rewrite Hrun. cbn [mbind outcome_bind]. simpl in Hinv.
  exists s', window, cuts. split_and!; [done| |].
  - by rewrite remaining_pending, Hpend'.
  - destruct Hinv as [Hcount ? ? ? ? ? ? ?]. simpl in Hcount. by subst n.
Qed.

End rankIncoming.

(** ** The reference implementation meets the contracts *)

Lemma level_lt_swo : StrictWeakOrder level_lt.
Proof.
  unfold level_lt. split.
  - intros a b ?%N.ltb_lt. apply N.ltb_ge. lia.
  - intros a b c ?%N.ltb_ge ?%N.ltb_ge. apply N.ltb_ge. lia.
Qed.

#[local] Instance level_order : PlayerOrder := {|
  player_lt := level_lt;
  player_lt_swo := level_lt_swo;
  player_lt_level := λ a b H, proj2 (N.ltb_lt _ _) H
|}.

Lemma StronglySorted_lookup {A} (R : relation A) (l : list A) i j x y :
  StronglySorted R l → i < j → l !! i = Some x → l !! j = Some y → R x y.
Proof.
  intros Hl. revert i j. induction Hl as [|a l Hl IH Ha]; intros i j Hij Hx Hy.
  { by rewrite lookup_nil in Hx. }
  destruct j as [|j]; [lia|]. simpl in Hy. destruct i as [|i].
  - simpl in Hx. simplify_eq. rewrite Forall_forall in Ha.
    apply Ha. by eapply list_elem_of_lookup_2.
  - simpl in Hx. apply (IH i j); [lia|done..].
Qed.

Lemma not_below_trans comp : StrictWeakOrder comp → Transitive (not_below comp).
Proof. intros Hswo a b c ??. by apply (swo_negtrans _ Hswo c b a). Qed.

Lemma not_below_total comp : StrictWeakOrder comp → Total (not_below comp).
Proof.
  intros Hswo a b. unfold not_below. destruct (comp b a) eqn:E; [|by left].
  right. by apply (swo_asym _ Hswo).
Qed.

Lemma ref_sort_is_sorted comp v :
  StrictWeakOrder comp → is_sorted comp (ref_sort comp v).
Proof.
  intros Hswo i j x y Hij Hx Hy.
  pose proof (not_below_trans comp Hswo). pose proof (not_below_total comp Hswo).
  by apply (StronglySorted_lookup (not_below comp) (ref_sort comp v) i j x y
              (StronglySorted_merge_sort _ v)).
Qed.

Lemma ref_make_heap_is_heap comp v :
  StrictWeakOrder comp → is_heap comp (ref_make_heap comp v).
Proof.
  intros Hswo i x y Hi Hx Hy.
  pose proof (swo_flip comp Hswo) as Hflip.
  pose proof (not_below_trans _ Hflip). pose proof (not_below_total _ Hflip).
  apply (StronglySorted_lookup (not_below (λ a b, comp b a))
           (ref_make_heap comp v) ((i - 1) / 2) i x y
           (StronglySorted_merge_sort _ v)); [lia|done..].
Qed.

Lemma ref_pop_heap_spec comp x v :
  StrictWeakOrder comp → is_heap comp (x :: v) →
  ∃ h, ref_pop_heap comp (x :: v) = h ++ [x] ∧ h ≡ₚ v ∧ is_heap comp h.
Proof.
  intros Hswo _. exists (ref_make_heap comp v). split_and!; [done| |].
  - apply merge_sort_Permutation.
  - by apply ref_make_heap_is_heap.
Qed.

#[local] Instance ref_stl : StdAlgorithm := {|
  std_make_heap := ref_make_heap;
  std_pop_heap := ref_pop_heap;
  std_sort := ref_sort;
  make_heap_perm := λ comp v, merge_sort_Permutation _ v;
  make_heap_is_heap := ref_make_heap_is_heap;
  pop_heap_spec := ref_pop_heap_spec;
  sort_perm := λ comp v, merge_sort_Permutation _ v;
  sort_is_sorted := ref_sort_is_sorted
|}.

(** * The specification's claims *)

Section claims.
Context `{order : PlayerOrder} `{stl : StdAlgorithm}.

(** Where [rankIncoming] records a cutoff: at the positive multiples of the
    interval up to the number of players read, and nowhere else; the entry
    at the final count, when there is one, is the score at the root of the
    final window. *)
Lemma rankIncoming_checkpoints s k :
  stream_ok s → (0 < k)%N →
  ∃ s' r, rankIncoming s k = Ok (s', r) ∧
    ∀ c, is_Some (cutoffs_ r !! c) ↔
         (0 < c ≤ N.of_nat (length (pending s)))%N ∧ (c mod k = 0)%N.
Proof.
  intros Hok Hk.
  destruct (rankIncoming_spec s k Hok Hk) as (s' & window & cuts & -> & _ & Hinv).
  eexists _, _. split; [done|]. apply (inv_keys _ _ _ Hinv).
Qed.

(** When the final count is a checkpoint, its cutoff is the lowest score in
    [top_]. *)
Lemma rankIncoming_final_checkpoint s k :
  stream_ok s → (0 < k)%N →
  ∃ s' r, rankIncoming s k = Ok (s', r) ∧
    ∀ l, cutoffs_ r !! N.of_nat (length (pending s)) = Some l →
         l = level_ (top_ r !!! 0).
Proof.
  intros Hok Hk.
  destruct (rankIncoming_spec s k Hok Hk) as (s' & window & cuts & -> & _ & Hinv).
  eexists _, _. split; [done|]. simpl. intros l Hl.
  rewrite (inv_last _ _ _ Hinv l Hl). simpl.
  pose proof (inv_heap _ _ _ Hinv) as Hheap. simpl in Hheap.
  pose proof (sort_perm player_lt window) as Hperm.
  pose proof (is_sorted_ascending _
                (sort_is_sorted player_lt window player_lt_swo)) as Hasc.
  destruct window as [|m t].
  { apply Permutation_nil_r in Hperm. by rewrite Hperm. }
  destruct (std_sort player_lt (m :: t)) as [|m' t'] eqn:Esort.
  { by apply Permutation_nil_cons in Hperm. }
  simpl. apply N.le_antisymm.
  - apply (min_heap_root_level (m :: t) m' Hheap).
    rewrite <-Hperm. by left.
  - assert (m ∈ m' :: t') as [i Hi]%list_elem_of_lookup
      by (rewrite Hperm; by left).
    apply (Hasc 0 i m' m); [lia|done..].
Qed.

(** C1, as the code behaves: a stream of 132 players read at interval 50
    leaves cutoffs at the keys 50 and 100 only; no entry is keyed by the
    final count 132. *)
Theorem rankIncoming_132_by_50_has_no_final_checkpoint :
  ∃ s' r, rankIncoming (VectorPlayerStream_new (roster 132)) 50 = Ok (s', r) ∧
    cutoffs_ r !! 132%N = None ∧
    ∀ c, is_Some (cutoffs_ r !! c) ↔ c = 50%N ∨ c = 100%N.
Proof.
  destruct (rankIncoming_checkpoints (VectorPlayerStream_new (roster 132)) 50)
    as (s' & r & Hrun & Hkeys).
  { apply stream_ok_new. by vm_compute. }
  { lia. }
  exists s', r. rewrite pending_new in Hkeys.
  replace (length (roster 132)) with 132 in Hkeys by (by vm_compute).
  split_and!; [done| |].
  - apply eq_None_not_Some. intros [_ Hmod]%Hkeys. by vm_compute in Hmod.
  - intros c. rewrite Hkeys. split.
    + intros [Hc Hmod].
      pose proof (N.div_mod c 50 ltac:(lia)) as Hdiv. rewrite Hmod in Hdiv.
      lia.
    + intros [->| ->]; by vm_compute.
Qed.

(** C2: [heapRank] and [quickSelectRank] each return [floor(0.1 * n)]
    players in [top_], which is none at all below ten players. *)
Theorem offline_top_length (players : list Player) :
  length (top_ (heapRank players).2) = length players / 10 ∧
  ∃ v r, quickSelectRank players = Ok (v, r) ∧
         length (top_ r) = length players / 10.
Proof.
  destruct (heapRank_spec players) as (v1 & top1 & -> & _ & Hlen1 & _).
  destruct (quickSelectRank_spec players) as (v2 & top2 & -> & _ & Hlen2 & _).
  split; [done|]. by eexists _, _.
Qed.


(** C4: [rankIncoming] returns in [top_] the [min n k] highest players of
    the [n] it reads (the stream splits into [top_] and players none of
    which is ordered above a player of [top_]), ascending by score. *)
Theorem rankIncoming_top (s : VectorPlayerStream) (k : N) :
  stream_ok s → (0 < k)%N →
  ∃ s' r, rankIncoming s k = Ok (s', r) ∧
    length (top_ r) = length (pending s) `min` N.to_nat k ∧
    top_selection not_above (pending s) (top_ r) ∧
    ascending_by_level (top_ r).
Proof.
  intros Hok Hk.
  destruct (rankIncoming_spec s k Hok Hk) as (s' & window & cuts & -> & _ & Hinv).
  destruct Hinv as [_ _ Hsize Htop _ _ _ _]. simpl in *.
  eexists _, _. split_and!; [done|..]; simpl.
  - by rewrite (Permutation_length (sort_perm _ _)).
  - apply (top_selection_perm _ (pending s) _ window); [done| |done].
    symmetry. apply sort_perm.
  - apply is_sorted_ascending, sort_is_sorted, player_lt_swo.
Qed.

(** C5: on a non-empty min-heap, [replaceMin] returns a min-heap of the
    same size that holds the replacement in place of the old root, and
    the old root was a minimum of the heap. *)
Theorem replaceMin_heap (h : list Player) (target : Player) :
  h ≠ [] → is_heap player_gt h →
  ∃ h', replaceMin h target = Ok h' ∧
        is_heap player_gt h' ∧
        length h' = length h ∧
        h !!! 0 :: h' ≡ₚ target :: h ∧
        ∀ y, y ∈ h → player_lt y (h !!! 0) = false.
Proof.
  intros Hne Hheap.
  destruct (replaceMin_spec h target Hne Hheap) as (h' & Hrun & Hh' & Hlen & Hp).
  exists h'. destruct h as [|m t]; [done|].
  split_and!; [done..| |].
  - rewrite Hp. simpl. apply perm_swap.
  - intros y Hy.
    apply (is_heap_root_elem player_gt player_gt_swo m t y Hheap Hy).
Qed.

(** C6: [top_] is non-decreasing by score in the result of [heapRank], of
    [quickSelectRank] and of [rankIncoming]. *)
Theorem top_ascending (players : list Player) (s : VectorPlayerStream)
    (k : N) :
  stream_ok s → (0 < k)%N →
  ascending_by_level (top_ (heapRank players).2) ∧
  (∃ v r, quickSelectRank players = Ok (v, r) ∧ ascending_by_level (top_ r)) ∧
  (∃ s' r, rankIncoming s k = Ok (s', r) ∧ ascending_by_level (top_ r)).
Proof.
  intros Hok Hk. split_and!.
  - destruct (heapRank_spec players) as (v & top & -> & _ & _ & Hs & _).
    by apply is_sorted_ascending.
  - destruct (quickSelectRank_spec players) as (v & top & -> & _ & _ & Hs & _).
    by eexists _, _.
  - destruct (rankIncoming_spec s k Hok Hk) as (s' & window & cuts & -> & _).
    eexists _, _. split; [done|]. simpl.
    apply is_sorted_ascending, sort_is_sorted, player_lt_swo.
Qed.

(** C7: the cutoffs [rankIncoming] records are non-decreasing along
    increasing checkpoint keys. *)
Theorem cutoffs_monotone (s : VectorPlayerStream) (k : N) :
  stream_ok s → (0 < k)%N →
  ∃ s' r, rankIncoming s k = Ok (s', r) ∧
    ∀ c1 c2 l1 l2, (c1 < c2)%N →
      cutoffs_ r !! c1 = Some l1 → cutoffs_ r !! c2 = Some l2 → (l1 ≤ l2)%N.
Proof.
  intros Hok Hk.
  destruct (rankIncoming_spec s k Hok Hk) as (s' & window & cuts & -> & _ & Hinv).
  eexists _, _. split; [done|]. apply (inv_mono _ _ _ Hinv).
Qed.

(** C8: [nextPlayer] throws exactly when [remaining] is 0; otherwise it
    returns the player at the current index and [remaining] drops by
    one. *)
Theorem nextPlayer_exhaustion (s : VectorPlayerStream) :
  stream_ok s →
  ((∃ what, nextPlayer s = Throw what) ↔ remaining s = 0%N) ∧
  ((0 < remaining s)%N →
     ∃ p s', nextPlayer s = Ok (p, s') ∧
             players_ s !! N.to_nat (currIndex s) = Some p ∧
             stream_ok s' ∧
             remaining s' = (remaining s - 1)%N).
Proof.
  intros Hok. pose proof (remaining_pending s Hok) as Hrem.
  destruct (pending s) as [|p rest] eqn:Hpend.
  - simpl in Hrem. rewrite Hrem. split; [|lia].
    split; [done|]. intros _. exists "Out of Bounds."%string.
    unfold nextPlayer, pending in *. destruct Hok as [Hidx _].
    apply (f_equal length) in Hpend. rewrite length_drop in Hpend.
    simpl in Hpend.
    by destruct (N.leb_spec (N.of_nat (length (players_ s))) (currIndex s));
      [|lia].
  - destruct (nextPlayer_pending s p rest Hok Hpend)
      as (s' & Hnext & Hok' & Hpend' & _).
    rewrite Hnext, Hrem. simpl. split.
    + split; [by intros [??]|lia].
    + intros _. exists p, s'. split_and!; [done| |done|].
      * unfold pending in Hpend.
        rewrite <-(Nat.add_0_r (N.to_nat _)), <-lookup_drop. by rewrite Hpend.
      * rewrite (remaining_pending s' Hok'), Hpend'. lia.
Qed.

(** C9: [heapRank] and [quickSelectRank] return an empty [cutoffs_]. *)
Theorem offline_cutoffs_empty (players : list Player) :
  cutoffs_ (heapRank players).2 = ∅ ∧
  ∃ v r, quickSelectRank players = Ok (v, r) ∧ cutoffs_ r = ∅.
Proof.
  destruct (quickSelectRank_spec players) as (v & top & -> & _).
  split; [done|]. by eexists _, _.
Qed.

(** C10: after [heapRank] and after [quickSelectRank] the input vector
    holds the same multiset of players as before. *)
Theorem offline_rankers_rearrange (players : list Player) :
  (heapRank players).1 ≡ₚ players ∧
  ∃ v r, quickSelectRank players = Ok (v, r) ∧ v ≡ₚ players.
Proof.
  destruct (heapRank_spec players) as (v1 & top1 & -> & Hp1 & _).
  destruct (quickSelectRank_spec players) as (v2 & top2 & -> & Hp2 & _).
  split; [done|]. by eexists _, _.
Qed.

End claims.

(** ** The claims at concrete inputs, under the reference implementation *)

(** The model run on the specification's scenarios. *)

Example heapRank_ten_players :
  level_ <$> top_ (heapRank (roster 10)).2 = [10%N].
Proof. by vm_compute. Qed.

Example quickSelectRank_ten_players :
  match quickSelectRank (roster 10) with
  | Ok (_, r) => Some (level_ <$> top_ r)
  | _ => None
  end = Some [10%N].
Proof. by vm_compute. Qed.

Example rankIncoming_132_by_50 :
  match rankIncoming (VectorPlayerStream_new (roster 132)) 50 with
  | Ok (s', r) =>
      Some (remaining s', length (top_ r), level_ <$> take 2 (top_ r),
            cutoffs_ r !! 50%N, cutoffs_ r !! 100%N, cutoffs_ r !! 132%N)
  | _ => None
  end = Some (0%N, 50, [83%N; 84%N], Some 1%N, Some 51%N, None).
Proof. by vm_compute. Qed.

Example rankIncoming_exactly_one_interval :
  match rankIncoming (VectorPlayerStream_new (roster 5)) 5 with
  | Ok (_, r) => Some (level_ <$> top_ r, map_to_list (cutoffs_ r))
  | _ => None
  end = Some ([1; 2; 3; 4; 5]%N, [(5%N, 1%N)]).
Proof. by vm_compute. Qed.

Example nextPlayer_on_exhausted_stream :
  nextPlayer (mkStream (roster 2) 2) = Throw "Out of Bounds.".
Proof. done. Qed.

Lemma is_heap_sample :
  is_heap player_gt (mkPlayer "A" 1 :: mkPlayer "B" 3 :: mkPlayer "C" 2 :: []).
Proof.
  apply is_heap_total. intros c Hc. simpl in Hc.
  destruct c as [|[|[|c]]]; [lia|done|done|lia].
Qed.



Lemma rankIncoming_top_witness :
  stream_ok (VectorPlayerStream_new (roster 7)) ∧ (0 < 3)%N ∧
  ∃ s' r, rankIncoming (VectorPlayerStream_new (roster 7)) 3 = Ok (s', r) ∧
    length (top_ r) = length (pending (VectorPlayerStream_new (roster 7)))
                        `min` N.to_nat 3 ∧
    top_selection not_above (pending (VectorPlayerStream_new (roster 7)))
      (top_ r) ∧
    ascending_by_level (top_ r).
Proof.
  split; [split; by vm_compute|]. split; [lia|].
  apply (rankIncoming_top (VectorPlayerStream_new (roster 7)) 3);
    [split; by vm_compute|lia].
Defined.

Lemma replaceMin_heap_witness :
  let h := mkPlayer "A" 1 :: mkPlayer "B" 3 :: mkPlayer "C" 2 :: [] in
  let target := mkPlayer "D" 9 in
  h ≠ [] ∧ is_heap player_gt h ∧
  ∃ h', replaceMin h target = Ok h' ∧
        is_heap player_gt h' ∧
        length h' = length h ∧
        h !!! 0 :: h' ≡ₚ target :: h ∧
        ∀ y, y ∈ h → player_lt y (h !!! 0) = false.
Proof.
  cbn zeta. split; [done|]. split; [apply is_heap_sample|].
  apply replaceMin_heap; [done|apply is_heap_sample].
Defined.

Lemma top_ascending_witness :
  let s := VectorPlayerStream_new (roster 7) in
  stream_ok s ∧ (0 < 3)%N ∧
  ascending_by_level (top_ (heapRank (roster 20)).2) ∧
  (∃ v r, quickSelectRank (roster 20) = Ok (v, r) ∧
          ascending_by_level (top_ r)) ∧
  (∃ s' r, rankIncoming s 3 = Ok (s', r) ∧ ascending_by_level (top_ r)).
Proof.
  cbn zeta. split; [split; by vm_compute|]. split; [lia|].
  apply (top_ascending (roster 20) (VectorPlayerStream_new (roster 7)) 3);
    [split; by vm_compute|lia].
Defined.

Lemma cutoffs_monotone_witness :
  let s := VectorPlayerStream_new (roster 7) in
  stream_ok s ∧ (0 < 3)%N ∧
  ∃ s' r, rankIncoming s 3 = Ok (s', r) ∧
    ∀ c1 c2 l1 l2, (c1 < c2)%N →
      cutoffs_ r !! c1 = Some l1 → cutoffs_ r !! c2 = Some l2 → (l1 ≤ l2)%N.
Proof.
  cbn zeta. split; [split; by vm_compute|]. split; [lia|].
  apply (cutoffs_monotone (VectorPlayerStream_new (roster 7)) 3);
    [split; by vm_compute|lia].
Defined.

Lemma nextPlayer_exhaustion_witness :
  let s := VectorPlayerStream_new (roster 2) in
  stream_ok s ∧
  ((∃ what, nextPlayer s = Throw what) ↔ remaining s = 0%N) ∧
  ((0 < remaining s)%N →
     ∃ p s', nextPlayer s = Ok (p, s') ∧
             players_ s !! N.to_nat (currIndex s) = Some p ∧
             stream_ok s' ∧
             remaining s' = (remaining s - 1)%N).
Proof.
  cbn zeta. split; [split; by vm_compute|].
  apply (nextPlayer_exhaustion (VectorPlayerStream_new (roster 2))).
  split; by vm_compute.
Defined.

(** * Further properties of the code *)

(** ** [Offline::partition] *)

Lemma swap_same v i : swap v i i = v.
Proof.
  unfold swap. destruct (v !! i) eqn:E; [|done].
  rewrite list_insert_insert_eq. by apply list_insert_id.
Qed.

Lemma partition_pivot_value players low high :
  (0 ≤ low)%Z → (low ≤ high)%Z → (high < length players)%Z →
  (partition players low high).1 !!! Z.to_nat (partition players low high).2
    = players !!! Z.to_nat high.
Proof.
  intros Hlow Hlh Hhigh. unfold partition.
  destruct (partition_loop _ _ _ _ _) as [v1 lower] eqn:Eloop. simpl.
  pose proof (partition_loop_spec (players !!! Z.to_nat high) players
    (Z.to_nat low) (Z.to_nat high) (Z.to_nat (high - low)) players
    (Z.to_nat low) (Z.to_nat low)) as Hloop.
  rewrite !Z2Nat.id in Hloop by lia.
  destruct (Hloop ltac:(lia) ltac:(lia) ltac:(lia) eq_refl
              (frame_refl _ _ _) ltac:(intros; lia) ltac:(intros; lia)
              _ _ Eloop)
    as (Hrange & (Hlen & _) & Hx & _).
  rewrite Nat2Z.id, lookup_total_swap_l by lia. done.
Qed.

(** Lomuto's postcondition: the pivot, the player that was last in the
    range, lands at the returned index; no player before it in the range
    scores above it, every player after it in the range scores strictly
    above it; the range is permuted within itself and no slot outside it
    is written. *)
Theorem partition_postcondition (players : list Player) (low high : Z) :
  (0 ≤ low)%Z → (low ≤ high)%Z → (high < length players)%Z →
  let v := (partition players low high).1 in
  let pivot := (partition players low high).2 in
  (low ≤ pivot ≤ high)%Z ∧
  v ≡ₚ players ∧
  v !!! Z.to_nat pivot = players !!! Z.to_nat high ∧
  (∀ i : nat, ¬ (low ≤ i ≤ high)%Z → v !!! i = players !!! i) ∧
  (∀ i : nat, (low ≤ i < pivot)%Z →
     (level_ (v !!! i) ≤ level_ (v !!! Z.to_nat pivot))%N) ∧
  (∀ i : nat, (pivot < i ≤ high)%Z →
     (level_ (v !!! Z.to_nat pivot) < level_ (v !!! i))%N).
Proof.
  intros Hlow Hlh Hhigh. cbn zeta.
  pose proof (partition_pivot_value players low high Hlow Hlh Hhigh) as Hpv.
  destruct (partition players low high) as [v pivot] eqn:Epart. simpl in *.
  apply partition_spec in Epart
    as (Hpivot & (_ & Hperm & Hout & _) & Hle & Hgt); [|lia..].
  done.
Qed.

(** A range whose last player scores highest is left as it is, the pivot
    staying last. *)
Lemma partition_loop_all_le x players i steps :
  (∀ j, i ≤ j < i + steps → (level_ (players !!! j) ≤ level_ x)%N) →
  partition_loop x players i i steps = (players, i + steps).
Proof.
  revert i. induction steps as [|steps IH]; intros i Hle; simpl.
  { by rewrite Nat.add_0_r. }
  destruct (N.leb_spec (level_ (players !!! i)) (level_ x)) as [_|Hgt].
  - rewrite swap_same, IH; [f_equal; lia|]. intros j Hj. apply Hle. lia.
  - specialize (Hle i ltac:(lia)). lia.
Qed.

Lemma partition_highest_last players low high :
  (0 ≤ low)%Z → (low ≤ high)%Z →
  (∀ j : nat, (low ≤ j < high)%Z →
     (level_ (players !!! j) ≤ level_ (players !!! Z.to_nat high))%N) →
  partition players low high = (players, high).
Proof.
  intros Hlow Hlh Hle. unfold partition.
  rewrite partition_loop_all_le.
  - replace (Z.to_nat low + Z.to_nat (high - low)) with (Z.to_nat high) by lia.
    rewrite swap_same. f_equal. lia.
  - intros j Hj. apply Hle. lia.
Qed.

(** ** [Offline::quickSort] *)

(** [quickSort] returns once the recursion may go as deep as the range is
    long; it leaves the range non-decreasing by score, a rearrangement of
    what it held, and writes no slot outside it. *)
Theorem quickSort_sorts (fuel : nat) (players : list Player) (low high : Z) :
  (0 ≤ low)%Z → (high < length players)%Z → Z.to_nat (high - low) ≤ fuel →
  ∃ v, quickSort fuel players low high = Ok v ∧
       v ≡ₚ players ∧
       (∀ i : nat, ¬ (low ≤ i ≤ high)%Z → v !!! i = players !!! i) ∧
       ∀ i j : nat, (low ≤ i)%Z → i ≤ j → (j ≤ high)%Z →
         (level_ (v !!! i) ≤ level_ (v !!! j))%N.
Proof.
  intros Hlow Hhigh Hfuel.
  destruct (quickSort_spec fuel players low high Hlow Hhigh Hfuel)
    as (v & Hrun & (Hlen & Hperm & Hout & _) & Hsorted).
  exists v. split_and!; [done..|].
  intros i j Hi Hij Hj. apply Hsorted; [done..|lia].
Qed.

Lemma quickSort_empty_range fuel players low high :
  (high ≤ low)%Z → quickSort fuel players low high = Ok players.
Proof.
  intros Hhl. destruct fuel; simpl;
    by destruct (Z.ltb_spec low high); [lia|].
Qed.

Lemma sorted_range_highest_last players (low high : Z) :
  (0 ≤ low)%Z → (high < length players)%Z → sorted_range low high players →
  ∀ j : nat, (low ≤ j < high)%Z →
    (level_ (players !!! j) ≤ level_ (players !!! Z.to_nat high))%N.
Proof. intros Hlow Hhigh Hs j Hj. apply Hs; lia. Qed.

(** On a range that is already non-decreasing by score [quickSort] moves
    nothing: the vector comes back as it was, ties included. *)
Theorem quickSort_sorted_unchanged (fuel : nat) (players : list Player)
    (low high : Z) :
  (0 ≤ low)%Z → (high < length players)%Z → Z.to_nat (high - low) ≤ fuel →
  sorted_range low high players →
  quickSort fuel players low high = Ok players.
Proof.
  revert high. induction fuel as [|fuel IH]; intros high Hlow Hhigh Hfuel Hs.
  { apply quickSort_empty_range. lia. }
  destruct (decide (low < high)%Z) as [Hlt|Hge];
    [|apply quickSort_empty_range; lia].
  cbn [quickSort]. destruct (Z.ltb_spec low high); [|lia].
  rewrite partition_highest_last;
    [|lia..|by apply sorted_range_highest_last].
  rewrite IH; [|lia..|].
  - cbn [mbind outcome_bind]. apply quickSort_empty_range. lia.
  - intros i j Hi Hij Hj Hjlen. apply Hs; lia.
Qed.

(** That input is the worst case of the last-element pivot: every call
    peels one slot off the range, so the recursion is as deep as the range
    is long, and any smaller bound on the depth is exceeded. *)
Theorem quickSort_sorted_depth (fuel : nat) (players : list Player)
    (low high : Z) :
  (0 ≤ low)%Z → (high < length players)%Z → fuel < Z.to_nat (high - low) →
  sorted_range low high players →
  quickSort fuel players low high = OutOfFuel.
Proof.
  revert high. induction fuel as [|fuel IH]; intros high Hlow Hhigh Hfuel Hs;
    cbn [quickSort]; destruct (Z.ltb_spec low high); try lia; [done|].
  rewrite partition_highest_last;
    [|lia..|by apply sorted_range_highest_last].
  rewrite IH; [done|lia..|].
  intros i j Hi Hij Hj Hjlen. apply Hs; lia.
Qed.

(** ** [Offline::quickSelect] *)

Lemma quickSelect_spec_within fuel players low high k :
  (0 ≤ low)%Z → (high < length players)%Z →
  (low ≤ k ≤ high)%Z → Z.to_nat (high - low) ≤ fuel →
  split_at low players → split_at (high + 1) players →
  ∃ v, quickSelect fuel players low high k = Ok v ∧
       frame low high players v ∧ split_at k v ∧ split_at (k + 1) v.
Proof.
  revert players low high.
  induction fuel as [|fuel IH];
    intros players low high Hlow Hhigh Hk Hfuel Hsl Hsh;
    cbn [quickSelect]; destruct (Z.ltb_spec low high) as [Hlt|Hge];
    try lia;
    try (exists players; replace k with low in * by lia;
         replace (low + 1)%Z with (high + 1)%Z by lia;
         split_and!; [done|apply frame_refl|done..]).
  destruct (partition players low high) as [v1 pivot] eqn:Epart.
  apply partition_spec in Epart as (Hpivot & Hfr1 & Hle & Hgt); [|lia..].
  pose proof Hfr1 as (Hlen1 & _).
  pose proof (frame_split_low _ _ _ _ Hfr1 Hsl) as Hsl1.
  pose proof (frame_split_high _ _ _ _ Hfr1 Hsh) as Hsh1.
  assert (split_at pivot v1) as Hsp.
  { intros i j Hi Hj Hjlen.
    destruct (decide (i < low)%Z); [apply Hsl1; lia|].
    destruct (decide (high < j)%Z); [apply Hsh1; lia|].
    etrans; [apply (Hle i); lia|].
    destruct (decide (Z.of_nat j = pivot)) as [Hjp|Hjp].
    - by replace (Z.to_nat pivot) with j by lia.
    - apply N.lt_le_incl, Hgt. lia. }
  assert (split_at (pivot + 1) v1) as Hsp1.
  { intros i j Hi Hj Hjlen.
    destruct (decide (i < low)%Z); [apply Hsl1; lia|].
    destruct (decide (high < j)%Z); [apply Hsh1; lia|].
    etrans; [|apply N.lt_le_incl, (Hgt j); lia].
    destruct (decide (Z.of_nat i = pivot)) as [Hip|Hip].
    - by replace (Z.to_nat pivot) with i by lia.
    - apply Hle. lia. }
  destruct (Z.eqb_spec pivot k) as [->|Hne].
  { by exists v1. }
  destruct (Z.ltb_spec pivot k) as [Hpk|Hpk].
  - destruct (IH v1 (pivot + 1)%Z high) as (v2 & -> & Hfr2 & Hs2);
      [lia..|done|done|].
    exists v2. split_and!; [done| |apply Hs2..].
    apply (frame_trans _ _ _ v1); [done|].
    apply (frame_mono (pivot + 1) high); [lia..|done].
  - destruct (IH v1 low (pivot - 1)%Z) as (v2 & -> & Hfr2 & Hs2);
      [lia..|done| |].
    { by replace (pivot - 1 + 1)%Z with pivot by lia. }
    exists v2. split_and!; [done| |apply Hs2..].
    apply (frame_trans _ _ _ v1); [done|].
    apply (frame_mono low (pivot - 1)); [lia..|done].
Qed.

(** Run over the whole vector for an index [k] inside it, [quickSelect]
    rearranges the players so that slot [k] holds what a full sort would
    put there: no player before [k] scores above one from [k] on, and the
    player at [k] scores above none after it. *)
Theorem quickSelect_places_kth (players : list Player) (k : Z) :
  (0 ≤ k < length players)%Z →
  ∃ v, quickSelect (length players) players 0 (length players - 1) k = Ok v ∧
       v ≡ₚ players ∧
       ∀ i j : nat, (i ≤ k)%Z → (k ≤ j)%Z → j < length players →
         (level_ (v !!! i) ≤ level_ (v !!! j))%N.
Proof.
  intros Hk.
  destruct (quickSelect_spec_within (length players) players 0
              (length players - 1) k) as (v & Hrun & Hfr & Hs & Hs1);
    [lia..| | |].
  { intros i j ?. lia. }
  { intros i j ???. lia. }
  destruct Hfr as (Hlen & Hperm & _).
  exists v. split_and!; [done..|]. intros i j Hi Hj Hjlen.
  destruct (decide (Z.of_nat i = k)) as [Hik|Hik].
  - destruct (decide (i = j)) as [->|]; [done|]. apply Hs1; lia.
  - apply Hs; lia.
Qed.

(** ** [Online::replaceMin] *)

Section replaceMin_steps.
Context `{order : PlayerOrder}.

(** Each iteration that does not stop at least doubles [index + 1], which
    stays within [size]. *)
Lemma replaceMin_loop_doubling fuel v size index :
  index < size → size < (index + 1) * 2 ^ fuel →
  ∃ v', replaceMin_loop fuel v size index = Ok v'.
Proof.
  revert v index. induction fuel as [|fuel IH]; intros v index Hi Hsize.
  { simpl in Hsize. lia. }
  cbn [replaceMin_loop].
  set (l := index * 2 + 1).
  set (s1 := if bool_decide (l < size) && less_at v l index then l else index).
  set (s2 := if bool_decide (l + 1 < size) && less_at v (l + 1) s1
             then l + 1 else s1).
  assert (s2 = index ∨ (index * 2 + 1 ≤ s2 ∧ s2 < size)) as [->|[Hlow Hup]].
  { unfold s2, s1.
    destruct (bool_decide (l + 1 < size) && _) eqn:E2.
    - apply andb_true_iff in E2 as [?%bool_decide_eq_true _]. right. lia.
    - destruct (bool_decide (l < size) && _) eqn:E1; [|by left].
      apply andb_true_iff in E1 as [?%bool_decide_eq_true _]. right. lia. }
  - rewrite bool_decide_eq_false_2 by lia. by eexists.
  - rewrite bool_decide_eq_true_2 by lia. apply IH; [done|].
    rewrite Nat.pow_succ_r' in Hsize. nia.
Qed.

Lemma replaceMin_loop_more_fuel fuel fuel' v size index v' :
  fuel ≤ fuel' →
  replaceMin_loop fuel v size index = Ok v' →
  replaceMin_loop fuel' v size index = Ok v'.
Proof.
  revert fuel' v index. induction fuel as [|fuel IH];
    intros fuel' v index Hle Hrun; [done|].
  destruct fuel' as [|fuel']; [lia|].
  cbn [replaceMin_loop] in *.
  destruct (bool_decide (_ ≠ index)); [|done].
  apply IH; [lia|done].
Qed.

(** The documented cost of [replaceMin]: on a range of [size] players the
    loop body runs at most [log2 size + 1] times, and bounding it so gives
    the result of [replaceMin]. *)
Theorem replaceMin_logarithmic (h : list Player) (target : Player) :
  h ≠ [] →
  ∃ h', replaceMin_loop (S (Nat.log2 (length h))) (<[0:=target]> h)
          (length h) 0 = Ok h' ∧
        replaceMin h target = Ok h'.
Proof.
  intros Hne.
  assert (0 < length h) as Hlen by (destruct h; [done|simpl; lia]).
  pose proof (Nat.log2_spec (length h) Hlen) as [_ Hlog].
  destruct (replaceMin_loop_doubling (S (Nat.log2 (length h)))
              (<[0:=target]> h) (length h) 0) as [h' Hrun]; [done|lia|].
  exists h'. split; [done|]. unfold replaceMin.
  apply (replaceMin_loop_more_fuel (S (Nat.log2 (length h)))); [|done].
  pose proof (Nat.log2_lt_lin (length h) Hlen). lia.
Qed.

End replaceMin_steps.

(** ** [VectorPlayerStream] *)

Lemma nextPlayer_exhausted s :
  stream_ok s → pending s = [] → nextPlayer s = Throw "Out of Bounds.".
Proof.
  intros [Hidx _] Hpend. unfold nextPlayer, pending in *.
  apply (f_equal length) in Hpend. rewrite length_drop in Hpend.
  simpl in Hpend.
  by destruct (N.leb_spec (N.of_nat (length (players_ s))) (currIndex s));
    [|lia].
Qed.

Lemma read_players_spec (n : nat) (s : VectorPlayerStream) :
  stream_ok s → n ≤ length (pending s) →
  ∃ s', read_players n s = Ok (take n (pending s), s') ∧
        stream_ok s' ∧
        players_ s' = players_ s ∧
        pending s' = drop n (pending s) ∧
        remaining s' = (remaining s - N.of_nat n)%N.
Proof.
  revert s. induction n as [|n IH]; intros s Hok Hn.
  { exists s. simpl. rewrite take_0, drop_0. split_and!; [done..|lia]. }
  destruct (pending s) as [|p rest] eqn:Hpend; [simpl in Hn; lia|].
  destruct (nextPlayer_pending s p rest Hok Hpend)
    as (s1 & Hnext & Hok1 & Hpend1 & Hplayers1).
  destruct (IH s1 Hok1) as (s' & Hrun & Hok' & Hplayers' & Hpend' & Hrem').
  { rewrite Hpend1. simpl in Hn. lia. }
  exists s'. cbn [read_players]. rewrite Hnext. cbn [mbind outcome_bind].
  rewrite Hrun. cbn [mbind outcome_bind]. rewrite Hpend1 in *.
  split_and!; [done..|congruence|done|].
  rewrite Hrem', (remaining_pending s Hok), (remaining_pending s1 Hok1).
  rewrite Hpend, Hpend1. simpl. lia.
Qed.

(** Reading [n] players off a stream that has that many left hands out
    the next [n] players of the vector in order and lowers [remaining] by
    [n]; the vector itself is never changed. *)
Theorem read_players_in_order (n : nat) (s : VectorPlayerStream) :
  stream_ok s → n ≤ length (pending s) →
  ∃ s', read_players n s = Ok (take n (pending s), s') ∧
        stream_ok s' ∧
        players_ s' = players_ s ∧
        pending s' = drop n (pending s) ∧
        remaining s' = (remaining s - N.of_nat n)%N.
Proof. intros Hok Hn. by apply read_players_spec. Qed.

(** A fresh stream read to its end gives back the vector it was built
    from, and the read after that throws. *)
Theorem stream_round_trip (players : list Player) :
  (length players < size_t_modulus)%Z →
  remaining (VectorPlayerStream_new players) = N.of_nat (length players) ∧
  ∃ s', read_players (length players) (VectorPlayerStream_new players)
          = Ok (players, s') ∧
        remaining s' = 0%N ∧
        nextPlayer s' = Throw "Out of Bounds.".
Proof.
  intros Hsize. pose proof (stream_ok_new players Hsize) as Hok.
  split; [by rewrite remaining_pending, pending_new|].
  destruct (read_players_spec (length players) _ Hok)
    as (s' & Hrun & Hok' & _ & Hpend' & _).
  { by rewrite pending_new. }
  rewrite pending_new, firstn_all in Hrun.
  rewrite pending_new, drop_all in Hpend'.
  exists s'. split_and!; [done| |by apply nextPlayer_exhausted].
  by rewrite remaining_pending, Hpend'.
Qed.

(** Asking a stream for more players than it has left throws. *)
Theorem read_players_past_end (n : nat) (s : VectorPlayerStream) :
  stream_ok s → length (pending s) < n →
  read_players n s = Throw "Out of Bounds.".
Proof.
  revert s. induction n as [|n IH]; intros s Hok Hn; [lia|].
  cbn [read_players].
  destruct (pending s) as [|p rest] eqn:Hpend.
  { by rewrite nextPlayer_exhausted. }
  destruct (nextPlayer_pending s p rest Hok Hpend)
    as (s1 & -> & Hok1 & Hpend1 & _).
  cbn [mbind outcome_bind]. rewrite IH; [done..|].
  rewrite Hpend1. simpl in Hn. lia.
Qed.

(** ** [Online::rankIncoming] *)

Section rankIncoming_more.
Context `{order : PlayerOrder} `{stl : StdAlgorithm}.

Lemma rankIncoming_run s k :
  stream_ok s → (0 < k)%N →
  ∃ s' st,
    rankIncoming s k =
      Ok (s', mkRankingResult (std_sort player_lt (topReportPlayers st))
                (cutoffs st)) ∧
    stream_ok s' ∧ pending s' = [] ∧ players_ s' = players_ s ∧
    rank_steps k (mkRankState 0 [] ∅) (pending s) = Ok st ∧
    rank_inv k (pending s) st.
Proof.
  intros Hok Hk. unfold rankIncoming.
  change (cutoffs_ empty_result) with (∅ : gmap N N).
  destruct (rankIncoming_loop_steps (N.to_nat (remaining s)) s k
              (mkRankState 0 [] ∅) Hok)
    as (s' & Hok' & Hpend' & Hplayers' & ->).
  { rewrite remaining_pending by done. lia. }
  destruct (rank_steps_inv k [] (mkRankState 0 [] ∅) (pending s) Hk
              (rank_inv_init k)) as (st & Hrun & Hinv).
  simpl in Hinv. rewrite Hrun. cbn [mbind outcome_bind].
  by exists s', st.
Qed.

(** [rankIncoming] reads the stream to its end: afterwards nothing
    remains, a further [nextPlayer] throws, and the stream's vector is as
    it was. *)
Theorem rankIncoming_exhausts_stream (s : VectorPlayerStream) (k : N) :
  stream_ok s → (0 < k)%N →
  ∃ s' r, rankIncoming s k = Ok (s', r) ∧
          remaining s' = 0%N ∧
          nextPlayer s' = Throw "Out of Bounds." ∧
          players_ s' = players_ s.
Proof.
  intros Hok Hk.
  destruct (rankIncoming_run s k Hok Hk)
    as (s' & st & -> & Hok' & Hpend' & Hplayers' & _).
  eexists _, _. split_and!; [done| | |done].
  - by rewrite remaining_pending, Hpend'.
  - by apply nextPlayer_exhausted.
Qed.

(** A stream shorter than the interval never reaches a checkpoint: all of
    its players come back in [top_], sorted, and [cutoffs_] is empty. *)
Theorem rankIncoming_short_stream (s : VectorPlayerStream) (k : N) :
  stream_ok s → (N.of_nat (length (pending s)) < k)%N →
  ∃ s' r, rankIncoming s k = Ok (s', r) ∧
          top_ r ≡ₚ pending s ∧
          is_sorted player_lt (top_ r) ∧
          cutoffs_ r = ∅.
Proof.
  intros Hok Hshort.
  destruct (rankIncoming_run s k Hok ltac:(lia))
    as (s' & st & -> & _ & _ & _ & _ & Hinv).
  destruct Hinv as [_ _ Hsize (rest & Hperm & _) Hkeys _ _ _].
  eexists _, _. split_and!; [done|..]; simpl.
  - rewrite sort_perm.
    assert (rest = []) as ->; [|done].
    apply Permutation_length in Hperm. rewrite length_app in Hperm.
    apply length_zero_iff_nil. lia.
  - apply sort_is_sorted, player_lt_swo.
  - apply map_empty. intros c. apply eq_None_not_Some.
    intros [Hrange Hmod]%Hkeys. rewrite N.mod_small in Hmod by lia. lia.
Qed.

Lemma rank_step_cutoffs k st p st' :
  rank_step k st p = Ok st' →
  cutoffs st' = cutoffs st ∨
  (Z.to_N (count st + 1) mod k = 0)%N ∧
  topReportPlayers st' ≠ [] ∧
  cutoffs st' =
    <[Z.to_N (count st + 1) := level_ (topReportPlayers st' !!! 0)]>
      (cutoffs st).
Proof.
  unfold rank_step.
  destruct (if (N.of_nat (length (topReportPlayers st)) <? k)%N then _ else _)
    as [window| |]; cbn [mbind outcome_bind]; [|done..].
  intros [= <-]. simpl.
  destruct (N.eqb_spec (Z.to_N (count st + 1) mod k) 0) as [Hmod|];
    [|by left].
  destruct (bool_decide (window = [])) eqn:E; [by left|].
  apply bool_decide_eq_false in E. by right.
Qed.

Lemma rank_step_cutoff_meaning k seen st p st' :
  (0 < k)%N → rank_inv k seen st →
  cutoff_meaning k seen (cutoffs st) →
  rank_step k st p = Ok st' →
  cutoff_meaning k (seen ++ [p]) (cutoffs st').
Proof.
  intros Hk Hinv Hmean Hstep.
  destruct (rank_step_inv k seen st p Hk Hinv) as (st'' & Hstep' & Hinv').
  assert (st'' = st') as -> by congruence.
  assert (∀ c l, cutoffs st !! c = Some l →
    ∃ w, top_selection not_above (take (N.to_nat c) (seen ++ [p])) w ∧
         length w = N.to_nat k ∧
         (∀ y, y ∈ w → (l ≤ level_ y)%N) ∧ ∃ y, y ∈ w ∧ level_ y = l) as Hold.
  { intros c l Hc. destruct (Hmean c l Hc) as (w & Hw).
    assert (is_Some (cutoffs st !! c)) as Hs by eauto.
    apply (inv_keys _ _ _ Hinv) in Hs as [Hrange _].
    exists w. by rewrite take_app_le by lia. }
  destruct (rank_step_cutoffs k st p st' Hstep) as [->|(Hmod & Hne & ->)];
    [done|].
  rewrite (inv_count _ _ _ Hinv) in *.
  intros c l. destruct (decide (c = Z.to_N (length seen + 1))) as [->|Hc].
  - rewrite lookup_insert_eq. intros [= <-].
    exists (topReportPlayers st'). split_and!.
    + rewrite take_ge; [apply (inv_top _ _ _ Hinv')|].
      rewrite length_app. simpl. lia.
    + rewrite (inv_size _ _ _ Hinv'), length_app. simpl.
      assert (k ≤ Z.to_N (length seen + 1))%N; [|lia].
      apply N.Lcm0.mod_divide in Hmod.
      apply N.divide_pos_le in Hmod; lia.
    + intros y Hy. apply min_heap_root_level; [|done].
      apply (inv_heap _ _ _ Hinv').
    + exists (topReportPlayers st' !!! 0). split; [|done].
      apply list_elem_of_lookup. exists 0.
      apply list_lookup_lookup_total_lt.
      destruct (topReportPlayers st'); [done|simpl; lia].
  - rewrite lookup_insert_ne by done. apply Hold.
Qed.

Lemma rank_steps_cutoff_meaning k seen st incoming st' :
  (0 < k)%N → rank_inv k seen st →
  cutoff_meaning k seen (cutoffs st) →
  rank_steps k st incoming = Ok st' →
  cutoff_meaning k (seen ++ incoming) (cutoffs st').
Proof.
  intros Hk. revert seen st.
  induction incoming as [|p incoming IH]; intros seen st Hinv Hmean Hrun.
  { simpl in Hrun. simplify_eq. by rewrite app_nil_r. }
  simpl in Hrun.
  destruct (rank_step_inv k seen st p Hk Hinv) as (st1 & Hstep & Hinv1).
  rewrite Hstep in Hrun. cbn [mbind outcome_bind] in Hrun.
  rewrite (assoc_L (++) seen [p] incoming : seen ++ p :: incoming = _).
  apply (IH _ st1); [done| |done].
  by apply (rank_step_cutoff_meaning k seen st).
Qed.

(** What the checkpoints hold: at every positive multiple [c] of the
    interval up to the number of players read, [cutoffs_] has an entry,
    and it is the lowest score among [k] highest of the first [c] players
    of the stream. *)
Theorem rankIncoming_cutoff_values (s : VectorPlayerStream) (k : N) :
  stream_ok s → (0 < k)%N →
  ∃ s' r, rankIncoming s k = Ok (s', r) ∧
    ∀ c, (0 < c ≤ N.of_nat (length (pending s)))%N → (c mod k = 0)%N →
      ∃ l w, cutoffs_ r !! c = Some l ∧
             top_selection not_above (take (N.to_nat c) (pending s)) w ∧
             length w = N.to_nat k ∧
             (∀ y, y ∈ w → (l ≤ level_ y)%N) ∧
             ∃ y, y ∈ w ∧ level_ y = l.
Proof.
  intros Hok Hk.
  destruct (rankIncoming_run s k Hok Hk)
    as (s' & st & -> & _ & _ & _ & Hrun & Hinv).
  eexists _, _. split; [done|]. simpl. intros c Hc Hmod.
  destruct (proj2 (inv_keys _ _ _ Hinv c) (conj Hc Hmod)) as [l Hl].
  pose proof (rank_steps_cutoff_meaning k [] _ (pending s) st Hk
                (rank_inv_init k)) as Hmean.
  destruct (Hmean ltac:(by intros ???) Hrun c l Hl) as (w & Hw).
  by exists l, w.
Qed.

End rankIncoming_more.

(** ** [Offline::heapRank] and [Offline::quickSelectRank] *)

Section offline_more.
Context `{order : PlayerOrder} `{stl : StdAlgorithm}.

(** [heapRank] selects the top decile under the players' own order:
    [top_] has [floor(0.1 * n)] players, the input splits into [top_] and
    players none of which is ordered above a player of [top_], and [top_]
    is sorted in that order. *)
Theorem heapRank_selects_top (players : list Player) :
  length (top_ (heapRank players).2) = length players / 10 ∧
  top_selection not_above players (top_ (heapRank players).2) ∧
  is_sorted player_lt (top_ (heapRank players).2).
Proof.
  destruct (heapRank_spec players) as (v & top & -> & _ & Hlen & Hs & Hsel).
  done.
Qed.

Lemma pop_loop_tail_sorted (heap : list Player) j :
  is_heap player_lt heap → j ≤ length heap →
  is_sorted player_lt
    (drop (length heap - j) (foldl pop_heap_before heap (seq 0 j))).
Proof.
  intros Hheap. induction j as [|j IH]; intros Hj.
  { simpl. rewrite Nat.sub_0_r, drop_all. intros i k x y _ Hx.
    by rewrite lookup_nil in Hx. }
  specialize (IH ltac:(lia)).
  destruct (pop_loop_spec heap j Hheap ltac:(lia)) as (Hlen & _ & Hh & Hsel).
  rewrite seq_S, foldl_app. simpl.
  set (v := foldl pop_heap_before heap (seq 0 j)) in *.
  unfold pop_heap_before. rewrite Hlen.
  destruct (take (length heap - j) v) as [|x t] eqn:Etake.
  { apply (f_equal length) in Etake. rewrite length_take in Etake.
    simpl in Etake. lia. }
  destruct (pop_heap_spec player_lt x t player_lt_swo Hh)
    as (h & -> & Hpt & Hhh).
  assert (length h = length heap - S j) as Hlh.
  { rewrite Hpt. apply (f_equal length) in Etake.
    rewrite length_take in Etake. simpl in Etake. lia. }
  rewrite <-(assoc_L (++)). simpl. rewrite <-Hlh, drop_app_length.
  intros [|i] [|k] a b Hik Ha Hb; try lia; simpl in Ha, Hb.
  - simplify_eq. apply Hsel; [by left|]. by eapply list_elem_of_lookup_2.
  - apply (IH i k); [lia|done..].
Qed.

(** What [heapRank] leaves in the caller's vector: the first
    [n - floor(0.1 * n)] slots form a max-heap, and the slots after them
    hold the players of [top_], already sorted by the pops. *)
Theorem heapRank_leaves_heap_and_sorted_tail (players : list Player) :
  let v := (heapRank players).1 in
  let first := length players - length players / 10 in
  is_heap player_lt (take first v) ∧
  is_sorted player_lt (drop first v) ∧
  top_ (heapRank players).2 ≡ₚ drop first v.
Proof.
  cbn zeta. unfold heapRank. simpl.
  set (heap := std_make_heap player_lt players).
  assert (length heap = length players) as Hlen
    by apply Permutation_length, make_heap_perm.
  assert (is_heap player_lt heap) as Hheap
    by apply make_heap_is_heap, player_lt_swo.
  pose proof (decile_le (length players)) as Hdec. unfold decile in *.
  destruct (pop_loop_spec heap (length players / 10) Hheap ltac:(lia))
    as (Hlv & _ & Hh & _).
  pose proof (pop_loop_tail_sorted heap (length players / 10) Hheap
                ltac:(lia)) as Hsorted.
  rewrite Hlv, Hlen in *. split_and!; [done..|]. apply sort_perm.
Qed.

End offline_more.

(** What [quickSelectRank] leaves in the caller's vector: [top_] is its
    tail from slot [n - floor(0.1 * n)] on, and no player before that slot
    scores above a player of [top_]. *)
Theorem quickSelectRank_partitions_input (players : list Player) :
  let first := length players - length players / 10 in
  ∃ v r, quickSelectRank players = Ok (v, r) ∧
         top_ r = drop first v ∧
         ∀ x y, x ∈ take first v → y ∈ top_ r → (level_ x ≤ level_ y)%N.
Proof.
  cbn zeta. unfold quickSelectRank.
  pose proof (decile_le (length players)) as Hdec. unfold decile in *.
  set (n := length players) in *.
  set (topTen := (n - (n / 10)%nat)%Z).
  destruct (quickSelect_spec n players 0 (n - 1) topTen)
    as (v1 & -> & Hfr1 & Hsp1); [unfold topTen, n in *; lia..| | |].
  { intros i j ?. lia. }
  { intros i j ???. unfold n in *. lia. }
  cbn [mbind outcome_bind].
  pose proof Hfr1 as (Hlen1 & _).
  destruct (quickSort_spec n v1 topTen (n - 1))
    as (v2 & -> & Hfr2 & _); [unfold topTen, n in *; lia..|].
  cbn [mbind outcome_bind].
  pose proof Hfr2 as (Hlen2 & _).
  pose proof (frame_split_low _ _ _ _ Hfr2 Hsp1) as Hsp2.
  replace (Z.to_nat topTen) with (n - n / 10) by (unfold topTen; lia).
  eexists _, _. split_and!; [done..|]. cbn [top_].
  intros x y [i Hi]%list_elem_of_lookup [j Hj]%list_elem_of_lookup.
  apply lookup_take_Some in Hi as [Hi Hik]. rewrite lookup_drop in Hj.
  pose proof (lookup_lt_Some _ _ _ Hj).
  apply list_lookup_total_correct in Hi as <-, Hj as <-.
  apply Hsp2; unfold topTen, n in *; lia.
Qed.

(** ** The online ranker against the offline one *)

(** Fed a vector of at least ten players through a fresh stream, with the
    decile as interval, [rankIncoming] returns in [top_] the same multiset
    of scores as [heapRank] on that vector. *)
Theorem rankIncoming_agrees_with_heapRank `{order : PlayerOrder}
    `{stl : StdAlgorithm} (players : list Player) :
  10 ≤ length players → (length players < size_t_modulus)%Z →
  ∃ s' r,
    rankIncoming (VectorPlayerStream_new players)
      (N.of_nat (length players / 10)) = Ok (s', r) ∧
    level_ <$> top_ r ≡ₚ level_ <$> top_ (heapRank players).2.
Proof.
  intros Hten Hsize.
  assert (0 < N.of_nat (length players / 10))%N as Hk by lia.
  destruct (rankIncoming_spec (VectorPlayerStream_new players) _
              (stream_ok_new players Hsize) Hk)
    as (s' & window & cuts & -> & _ & Hinv).
  rewrite pending_new in Hinv.
  destruct Hinv as [_ _ Hlen Htop _ _ _ _]. cbn [topReportPlayers] in *.
  destruct (heapRank_spec players) as (v & top & -> & _ & Hlen' & _ & Htop').
  eexists _, _. split; [done|]. cbn [top_ snd].
  apply (top_selection_scores players players); [done|..].
  - rewrite (Permutation_length (sort_perm _ _)), Hlen, Hlen'.
    unfold decile. lia.
  - apply (top_selection_weaken not_above); [apply @not_above_level_le|].
    apply (top_selection_perm _ players _ window); [done| |done].
    symmetry. apply sort_perm.
  - by apply (top_selection_weaken not_above); [apply @not_above_level_le|].
Qed.

(** ** The further properties at concrete inputs *)

Lemma sorted_range_sample : sorted_range 0 3 (squad [2; 4; 4; 7]%N).
Proof.
  intros i j _ Hij _ Hlen. simpl in Hlen.
  do 4 (destruct i as [|i];
        [do 4 (destruct j as [|j]; [by (lia || vm_compute)|]); lia|]).
  lia.
Qed.

Lemma partition_postcondition_witness :
  let players := squad [5; 1; 4; 2; 3]%N in
  (0 ≤ 0)%Z ∧ (0 ≤ 4)%Z ∧ (4 < length players)%Z ∧
  let v := (partition players 0 4).1 in
  let pivot := (partition players 0 4).2 in
  (0 ≤ pivot ≤ 4)%Z ∧
  v ≡ₚ players ∧
  v !!! Z.to_nat pivot = players !!! Z.to_nat 4 ∧
  (∀ i : nat, ¬ (0 ≤ i ≤ 4)%Z → v !!! i = players !!! i) ∧
  (∀ i : nat, (0 ≤ i < pivot)%Z →
     (level_ (v !!! i) ≤ level_ (v !!! Z.to_nat pivot))%N) ∧
  (∀ i : nat, (pivot < i ≤ 4)%Z →
     (level_ (v !!! Z.to_nat pivot) < level_ (v !!! i))%N).
Proof.
  cbn zeta. split; [lia|]. split; [lia|]. split; [by vm_compute|].
  apply (partition_postcondition (squad [5; 1; 4; 2; 3]%N) 0 4);
    [lia|lia|by vm_compute].
Defined.

Lemma quickSort_sorts_witness :
  let players := squad [5; 1; 4; 2; 3]%N in
  (0 ≤ 1)%Z ∧ (3 < length players)%Z ∧ Z.to_nat (3 - 1) ≤ 2 ∧
  ∃ v, quickSort 2 players 1 3 = Ok v ∧
       v ≡ₚ players ∧
       (∀ i : nat, ¬ (1 ≤ i ≤ 3)%Z → v !!! i = players !!! i) ∧
       ∀ i j : nat, (1 ≤ i)%Z → i ≤ j → (j ≤ 3)%Z →
         (level_ (v !!! i) ≤ level_ (v !!! j))%N.
Proof.
  cbn zeta. split; [lia|]. split; [by vm_compute|]. split; [by vm_compute|].
  apply (quickSort_sorts 2 (squad [5; 1; 4; 2; 3]%N) 1 3);
    [lia|by vm_compute|by vm_compute].
Defined.

Lemma quickSort_sorted_unchanged_witness :
  let players := squad [2; 4; 4; 7]%N in
  (0 ≤ 0)%Z ∧ (3 < length players)%Z ∧ Z.to_nat (3 - 0) ≤ 3 ∧
  sorted_range 0 3 players ∧
  quickSort 3 players 0 3 = Ok players.
Proof.
  cbn zeta. split; [lia|]. split; [by vm_compute|]. split; [by vm_compute|].
  split; [apply sorted_range_sample|].
  apply (quickSort_sorted_unchanged 3 (squad [2; 4; 4; 7]%N) 0 3);
    [lia|by vm_compute|by vm_compute|apply sorted_range_sample].
Defined.

Lemma quickSort_sorted_depth_witness :
  let players := squad [2; 4; 4; 7]%N in
  (0 ≤ 0)%Z ∧ (3 < length players)%Z ∧ 2 < Z.to_nat (3 - 0) ∧
  sorted_range 0 3 players ∧
  quickSort 2 players 0 3 = OutOfFuel.
Proof.
  cbn zeta. split; [lia|]. split; [by vm_compute|]. split; [by vm_compute|].
  split; [apply sorted_range_sample|].
  apply (quickSort_sorted_depth 2 (squad [2; 4; 4; 7]%N) 0 3);
    [lia|by vm_compute|by vm_compute|apply sorted_range_sample].
Defined.

Lemma quickSelect_places_kth_witness :
  let players := squad [5; 1; 4; 2; 3]%N in
  (0 ≤ 2 < length players)%Z ∧
  ∃ v, quickSelect (length players) players 0 (length players - 1) 2 = Ok v ∧
       v ≡ₚ players ∧
       ∀ i j : nat, (i ≤ 2)%Z → (2 ≤ j)%Z → j < length players →
         (level_ (v !!! i) ≤ level_ (v !!! j))%N.
Proof.
  cbn zeta. split; [by vm_compute|].
  apply (quickSelect_places_kth (squad [5; 1; 4; 2; 3]%N) 2). by vm_compute.
Defined.

Lemma replaceMin_logarithmic_witness :
  let h := squad [1; 3; 2; 7; 4; 5; 6]%N in
  let target := mkPlayer "T" 9 in
  h ≠ [] ∧
  ∃ h', replaceMin_loop (S (Nat.log2 (length h))) (<[0:=target]> h)
          (length h) 0 = Ok h' ∧
        replaceMin h target = Ok h'.
Proof.
  cbn zeta. split; [done|].
  by apply (replaceMin_logarithmic (squad [1; 3; 2; 7; 4; 5; 6]%N)).
Defined.

Lemma read_players_in_order_witness :
  let s := mkStream (roster 5) 1 in
  stream_ok s ∧ 2 ≤ length (pending s) ∧
  ∃ s', read_players 2 s = Ok (take 2 (pending s), s') ∧
        stream_ok s' ∧
        players_ s' = players_ s ∧
        pending s' = drop 2 (pending s) ∧
        remaining s' = (remaining s - N.of_nat 2)%N.
Proof.
  cbn zeta. split; [split; by vm_compute|]. split; [vm_compute; lia|].
  apply (read_players_in_order 2 (mkStream (roster 5) 1));
    [split; by vm_compute|vm_compute; lia].
Defined.

Lemma stream_round_trip_witness :
  (length (roster 3) < size_t_modulus)%Z ∧
  remaining (VectorPlayerStream_new (roster 3)) = N.of_nat (length (roster 3)) ∧
  ∃ s', read_players (length (roster 3)) (VectorPlayerStream_new (roster 3))
          = Ok (roster 3, s') ∧
        remaining s' = 0%N ∧
        nextPlayer s' = Throw "Out of Bounds.".
Proof.
  split; [by vm_compute|].
  apply (stream_round_trip (roster 3)). by vm_compute.
Defined.

Lemma read_players_past_end_witness :
  let s := mkStream (roster 5) 3 in
  stream_ok s ∧ length (pending s) < 3 ∧
  read_players 3 s = Throw "Out of Bounds.".
Proof.
  cbn zeta. split; [split; by vm_compute|]. split; [vm_compute; lia|].
  apply (read_players_past_end 3 (mkStream (roster 5) 3));
    [split; by vm_compute|vm_compute; lia].
Defined.

Lemma rankIncoming_exhausts_stream_witness :
  let s := VectorPlayerStream_new (roster 7) in
  stream_ok s ∧ (0 < 3)%N ∧
  ∃ s' r, rankIncoming s 3 = Ok (s', r) ∧
          remaining s' = 0%N ∧
          nextPlayer s' = Throw "Out of Bounds." ∧
          players_ s' = players_ s.
Proof.
  cbn zeta. split; [split; by vm_compute|]. split; [lia|].
  apply (rankIncoming_exhausts_stream (VectorPlayerStream_new (roster 7)) 3);
    [split; by vm_compute|lia].
Defined.

Lemma rankIncoming_short_stream_witness :
  let s := VectorPlayerStream_new (roster 4) in
  stream_ok s ∧ (N.of_nat (length (pending s)) < 6)%N ∧
  ∃ s' r, rankIncoming s 6 = Ok (s', r) ∧
          top_ r ≡ₚ pending s ∧
          is_sorted player_lt (top_ r) ∧
          cutoffs_ r = ∅.
Proof.
  cbn zeta. split; [split; by vm_compute|]. split; [by vm_compute|].
  apply (rankIncoming_short_stream (VectorPlayerStream_new (roster 4)) 6);
    [split; by vm_compute|by vm_compute].
Defined.

Lemma rankIncoming_cutoff_values_witness :
  let s := VectorPlayerStream_new (roster 7) in
  stream_ok s ∧ (0 < 3)%N ∧
  ∃ s' r, rankIncoming s 3 = Ok (s', r) ∧
    ∀ c, (0 < c ≤ N.of_nat (length (pending s)))%N → (c mod 3 = 0)%N →
      ∃ l w, cutoffs_ r !! c = Some l ∧
             top_selection not_above (take (N.to_nat c) (pending s)) w ∧
             length w = N.to_nat 3 ∧
             (∀ y, y ∈ w → (l ≤ level_ y)%N) ∧
             ∃ y, y ∈ w ∧ level_ y = l.
Proof.
  cbn zeta. split; [split; by vm_compute|]. split; [lia|].
  apply (rankIncoming_cutoff_values (VectorPlayerStream_new (roster 7)) 3);
    [split; by vm_compute|lia].
Defined.

Lemma rankIncoming_agrees_with_heapRank_witness :
  10 ≤ length (roster 20) ∧ (length (roster 20) < size_t_modulus)%Z ∧
  ∃ s' r,
    rankIncoming (VectorPlayerStream_new (roster 20))
      (N.of_nat (length (roster 20) / 10)) = Ok (s', r) ∧
    level_ <$> top_ r ≡ₚ level_ <$> top_ (heapRank (roster 20)).2.
Proof.
  split; [vm_compute; lia|]. split; [by vm_compute|].
  apply (rankIncoming_agrees_with_heapRank (roster 20));
    [vm_compute; lia|by vm_compute].
Defined.
